(** * m3u-to-xtream: the playlist parser, the fetch cache and the access gate

    A shallow embedding of [api/index.js] and the properties of its parser
    ([parseM3U], [parseAttributes]), of its time-bounded cache ([fetchM3U]),
    of its access gate ([okUserPass], [parseAllowUsers]) and of the body of
    the [/get.php] handler.

    JavaScript strings are sequences of UTF-16 code units; they are modelled
    as lists of code units so that [trim], the regular expressions and the
    comparisons see exactly the characters the program sees. *)

From Stdlib Require Import ZArith NArith String Ascii.
From stdpp Require Import gmap list.
From Equations Require Import Equations.
From Equations.Prop Require Import Logic.

(** ** Strings *)

Module JS.

Local Open Scope N_scope.

(** A string literal of the source, as code units. *)
Definition lit (s : string) : list N :=
  map N_of_ascii (list_ascii_of_string s).

Definition LF : N := 10.
Definition CR : N := 13.
Definition DQUOTE : N := 34.
Definition COMMA : N := 44.
Definition HYPHEN : N := 45.
Definition COLON : N := 58.
Definition EQUALS : N := 61.
Definition UNDERSCORE : N := 95.
Definition DOLLAR : N := 36.

(** [WhiteSpace] and [LineTerminator] of ECMAScript: what
    [String.prototype.trim] strips. *)
Definition isWhiteSpace (c : N) : bool :=
  ((9 <=? c) && (c <=? 13)) || (c =? 32) || (c =? 160) || (c =? 5760)
  || ((8192 <=? c) && (c <=? 8202)) || (c =? 8232) || (c =? 8233)
  || (c =? 8239) || (c =? 8287) || (c =? 12288) || (c =? 65279).

(** [\w] of a regular expression without the [u] and [i] flags. *)
Definition isWord (c : N) : bool :=
  ((48 <=? c) && (c <=? 57)) || ((65 <=? c) && (c <=? 90))
  || ((97 <=? c) && (c <=? 122)) || (c =? UNDERSCORE).

Fixpoint dropWhile (p : N -> bool) (s : list N) : list N :=
  match s with
  | [] => []
  | c :: s' => if p c then dropWhile p s' else s
  end.

Definition trimStart (s : list N) : list N := dropWhile isWhiteSpace s.
Definition trimEnd (s : list N) : list N := rev (trimStart (rev s)).
Definition trim (s : list N) : list N := trimEnd (trimStart s).

Fixpoint eqb (a b : list N) : bool :=
  match a, b with
  | [], [] => true
  | x :: a', y :: b' => (x =? y) && eqb a' b'
  | _, _ => false
  end.

(** [s.startsWith(p)] *)
Fixpoint startsWith (p s : list N) : bool :=
  match p, s with
  | [], _ => true
  | x :: p', y :: s' => (x =? y) && startsWith p' s'
  | _ :: _, [] => false
  end.

(** [s.indexOf(c)] for a one-character needle: the first index, or -1. *)
Fixpoint indexOf (c : N) (s : list N) : Z :=
  match s with
  | [] => (-1)%Z
  | x :: s' =>
      if x =? c then 0%Z
      else let i := indexOf c s' in if (i <? 0)%Z then (-1)%Z else (i + 1)%Z
  end.

(** [s.substring(a)] and [s.substring(a, b)] for [0 <= a <= b]. *)
Definition substringFrom (a : Z) (s : list N) : list N := drop (Z.to_nat a) s.
Definition substring (a b : Z) (s : list N) : list N :=
  take (Z.to_nat b - Z.to_nat a) (drop (Z.to_nat a) s).

(** Truthiness of a string: the empty string is falsy. *)
Definition truthy (s : list N) : bool :=
  match s with [] => false | _ => true end.

(** [a || b] where [a] is a string or [undefined] and [b] a string. *)
Definition orElse (a : option (list N)) (b : list N) : list N :=
  match a with
  | Some s => if truthy s then s else b
  | None => b
  end.

(** [a || null] *)
Definition orNull (a : option (list N)) : option (list N) :=
  match a with
  | Some s => if truthy s then Some s else None
  | None => None
  end.

(** Put [c] in front of the first piece of a split. *)
Definition consFirst (c : N) (ls : list (list N)) : list (list N) :=
  match ls with
  | [] => [[c]]
  | l :: ls' => (c :: l) :: ls'
  end.

(** [s.split(/\r?\n/)]: a line ends at a line feed, and a carriage return
    right before that line feed belongs to the separator. *)
Fixpoint splitLines (s : list N) : list (list N) :=
  match s with
  | [] => [[]]
  | c :: rest =>
      if c =? LF then [] :: splitLines rest
      else
        match rest with
        | c2 :: rest2 =>
            if (c =? CR) && (c2 =? LF) then [] :: splitLines rest2
            else consFirst c (splitLines rest)
        | [] => consFirst c (splitLines rest)
        end
  end.

(** [s.split(sep)] for a one-character string separator. *)
Fixpoint splitOn (sep : N) (s : list N) : list (list N) :=
  match s with
  | [] => [[]]
  | c :: rest =>
      if c =? sep then [] :: splitOn sep rest
      else consFirst c (splitOn sep rest)
  end.

(** [String(n)] for a natural number: its decimal digits. *)
Fixpoint digits (d : Decimal.uint) : list N :=
  match d with
  | Decimal.Nil => []
  | Decimal.D0 d' => 48 :: digits d'
  | Decimal.D1 d' => 49 :: digits d'
  | Decimal.D2 d' => 50 :: digits d'
  | Decimal.D3 d' => 51 :: digits d'
  | Decimal.D4 d' => 52 :: digits d'
  | Decimal.D5 d' => 53 :: digits d'
  | Decimal.D6 d' => 54 :: digits d'
  | Decimal.D7 d' => 55 :: digits d'
  | Decimal.D8 d' => 56 :: digits d'
  | Decimal.D9 d' => 57 :: digits d'
  end.

Definition ofNat (n : nat) : list N := digits (Nat.to_uint n).

Definition ofZ (z : Z) : list N :=
  match z with
  | Zneg p => HYPHEN :: digits (Pos.to_uint p)
  | _ => digits (N.to_uint (Z.to_N z))
  end.

End JS.

(** ** The playlist parser *)

(** The longest prefix of [s] whose characters satisfy [p], and the rest. *)
Fixpoint span (p : N -> bool) (s : list N) : list N * list N :=
  match s with
  | [] => ([], [])
  | c :: s' =>
      if p c then let '(a, b) := span p s' in (c :: a, b) else ([], s)
  end.

(** One attempt, at the start of [s], of the regular expression of
    [parseAttributes]: a [\w], a greedy run of [[\w-]], an equals sign, a
    double quote, a greedy run of characters other than the double quote, and
    a double quote. The result is the two groups and what follows the match.
    Giving characters back never helps: the character after the longest run
    of [[\w-]] is not in that class, and the one after the longest run of
    non-quotes is a quote or the end. *)
Definition matchAttr (s : list N) : option (list N * list N * list N) :=
  match s with
  | c :: s1 =>
      if JS.isWord c then
        let '(run, s2) := span (fun x => JS.isWord x || (x =? JS.HYPHEN)%N) s1 in
        match s2 with
        | e :: q :: s3 =>
            if ((e =? JS.EQUALS) && (q =? JS.DQUOTE))%N then
              let '(val, s4) := span (fun x => negb (x =? JS.DQUOTE)%N) s3 in
              match s4 with
              | _ :: rest => Some (c :: run, val, rest)
              | [] => None
              end
            else None
        | _ => None
        end
      else None
  | [] => None
  end.

(** [re.exec] on the text from [lastIndex] on: the leftmost match. *)
Fixpoint reExec (s : list N) : option (list N * list N * list N) :=
  match matchAttr s with
  | Some r => Some r
  | None => match s with [] => None | _ :: s' => reExec s' end
  end.

(** [attrs[k] = v] on an object created by [{}]. The key [__proto__] reaches
    the setter of [Object.prototype], which ignores a string: no property is
    created. *)
Definition setProp (k v : list N) (attrs : gmap (list N) (list N))
  : gmap (list N) (list N) :=
  if JS.eqb k (JS.lit "__proto__") then attrs else <[k := v]> attrs.

(** The [while ((m = re.exec(attrLine)) !== null)] loop; [s] is the text from
    [re.lastIndex] on. *)
Equations? attrLoop (s : list N) (attrs : gmap (list N) (list N))
  : gmap (list N) (list N) by wf (length s) lt :=
  attrLoop s attrs with inspect (reExec s) => {
    | exist _ (Some (k, v, rest)) _ => attrLoop rest (setProp k v attrs);
    | exist _ None _ => attrs }.
Proof.
  assert (Hspan : forall p (t a b : list N),
             span p t = (a, b) -> length t = length a + length b).
  { intros p t. induction t as [|c t IH]; intros a b; cbn [span].
    - intros H; inversion H; reflexivity.
    - destruct (p c).
      + destruct (span p t) as [a' b'] eqn:E. intros H; inversion H; subst.
        cbn [length]. rewrite (IH a' b eq_refl). lia.
      + intros H; inversion H; reflexivity. }
  assert (Hmatch : forall t r, matchAttr t = Some r -> length (snd r) < length t).
  { intros t r. unfold matchAttr. destruct t as [|c s1]; [discriminate|].
    destruct (JS.isWord c); [|discriminate].
    destruct (span _ s1) as [run s2] eqn:E1.
    destruct s2 as [|x [|y s3]]; try discriminate.
    destruct (_ && _); [|discriminate].
    destruct (span _ s3) as [val s4] eqn:E2.
    destruct s4 as [|d rest']; [discriminate|].
    intros H; inversion H; subst. apply Hspan in E1, E2.
    cbn [snd length] in *. lia. }
  assert (Hexec : forall t r, reExec t = Some r -> length (snd r) < length t).
  { intros t. induction t as [|c t IH]; intros r; cbn [reExec].
    - destruct (matchAttr []) eqn:E; [|discriminate].
      intros H; inversion H; subst. now apply Hmatch.
    - destruct (matchAttr (c :: t)) eqn:E.
      + intros H; inversion H; subst. now apply Hmatch.
      + intros H. apply IH in H. cbn [length]. lia. }
  match goal with H : reExec _ = Some _ |- _ => apply Hexec in H; exact H end.
Qed.

(** [parseAttributes]: the attributes found in [attrLine], a later one
    replacing an earlier one with the same key. *)
Definition parseAttributes (attrLine : list N) : gmap (list N) (list N) :=
  attrLoop attrLine ∅.

(** The object held in [current] and pushed onto [channels]. *)
Record pending := {
  p_name : list N;
  p_title : list N;
  p_attrs : gmap (list N) (list N);
  p_url : option (list N)
}.

(** An element of the array [parseM3U] returns. *)
Record channel := {
  id : list N;
  stream_id : nat;
  name : list N;
  title : list N;
  tvg_id : option (list N);
  tvg_logo : option (list N);
  group_title : list N;
  direct_source : option (list N)
}.

(** The marker of a metadata line, and the first character of a comment. *)
Definition EXTINF : list N := JS.lit "#EXTINF:".
Definition HASH : list N := JS.lit "#".

(** The text [after] the [#EXTINF:] marker, cut at its first comma. *)
Definition metaOf (after : list N) : list N :=
  let commaIdx := JS.indexOf JS.COMMA after in
  if (commaIdx >=? 0)%Z then JS.trim (JS.substring 0 commaIdx after)
  else JS.trim after.

(** The title: what follows the first comma, or the empty string. *)
Definition titleOf (after : list N) : list N :=
  let commaIdx := JS.indexOf JS.COMMA after in
  if (commaIdx >=? 0)%Z then JS.trim (JS.substringFrom (commaIdx + 1) after)
  else [].

(** [attrs["tvg-name"] || title || attrs["tvg-id"] || "Unnamed"] *)
Definition nameOf (attrs : gmap (list N) (list N)) (title : list N) : list N :=
  JS.orElse (attrs !! JS.lit "tvg-name")
    (JS.orElse (Some title)
       (JS.orElse (attrs !! JS.lit "tvg-id") (JS.lit "Unnamed"))).

(** The object built for a line that starts with [#EXTINF:]. *)
Definition newPending (line : list N) : pending :=
  let after := JS.substringFrom (Z.of_nat (length EXTINF)) line in
  let meta := metaOf after in
  let title := titleOf after in
  let attrs := parseAttributes meta in
  {| p_name := nameOf attrs title;
     p_title := title;
     p_attrs := attrs;
     p_url := None |}.

(** [current.url = line] *)
Definition setUrl (c : pending) (line : list N) : pending :=
  {| p_name := p_name c; p_title := p_title c; p_attrs := p_attrs c;
     p_url := Some line |}.

(** One iteration of the [for] loop of [parseM3U], on the state
    [(current, channels)]. *)
Definition parseStep (st : option pending * list pending) (raw : list N)
  : option pending * list pending :=
  let '(current, channels) := st in
  let line := JS.trim raw in
  if negb (JS.truthy line) then st
  else if JS.startsWith EXTINF line then (Some (newPending line), channels)
  else
    match current with
    | Some c =>
        if negb (JS.startsWith HASH line) then (None, channels ++ [setUrl c line])
        else st
    | None => st
    end.

(** The whole loop, from a given state. *)
Definition parseLoop (lines : list (list N)) (st : option pending * list pending)
  : option pending * list pending :=
  fold_left parseStep lines st.

(** The callback of [channels.map] at the end of [parseM3U]. *)
Definition toChannel (idx : nat) (c : pending) : channel :=
  {| id := JS.ofNat (idx + 1);
     stream_id := idx + 1;
     name := p_name c;
     title := p_title c;
     tvg_id := JS.orNull (p_attrs c !! JS.lit "tvg-id");
     tvg_logo := JS.orNull (p_attrs c !! JS.lit "tvg-logo");
     group_title := JS.orElse (p_attrs c !! JS.lit "group-title") (JS.lit "Other");
     direct_source := p_url c |}.

(** [parseM3U]: the loop from [current = null] and [channels = []], then
    the numbering. *)
Definition parseM3U (text : list N) : list channel :=
  let lines := JS.splitLines text in
  let channels := snd (parseLoop lines (None, [])) in
  imap toChannel channels.

(** ** The fetch cache *)

(** An [Error] object: its [name] and its [message]. *)
Record error := {
  errName : list N;
  errMessage : list N
}.

(** A call that returns a value or throws an error. *)
Inductive result (A : Type) :=
| Ok (a : A)
| Throw (e : error).
Arguments Ok {A} a.
Arguments Throw {A} e.

(** The module-level object [cache]. *)
Record cache := {
  m3uText : option (list N);
  parsed : option (list channel);
  fetchedAt : Z
}.

Definition initialCache : cache :=
  {| m3uText := None; parsed := None; fetchedAt := 0 |}.

(** What one [undiciRequest(SOURCE_M3U_URL)] does: it rejects, or it resolves
    to a response with a status code whose body text is then read (and the
    read may reject as well). *)
Inductive outcome :=
| Rejected (e : error)
| Replied (statusCode : Z) (bodyText : result (list N)).

(** The upstream as the program sees it: the outcome of the n-th request,
    and the number of requests made so far. *)
Record upstream := {
  requests : nat;
  answer : nat -> outcome
}.

Definition request (w : upstream) : outcome * upstream :=
  (answer w (requests w), {| requests := S (requests w); answer := answer w |}).

(** [new Error(`Upstream M3U fetch failed: ${res.statusCode}`)] *)
Definition fetchFailed (statusCode : Z) : error :=
  {| errName := JS.lit "Error";
     errMessage := JS.lit "Upstream M3U fetch failed: " ++ JS.ofZ statusCode |}.

(** The part of [fetchM3U] after its first [return]: one request, and the
    three assignments to [cache] when it succeeds. *)
Definition refresh (now : Z) (c : cache) (w : upstream)
  : result (list N) * cache * upstream :=
  let '(res, w') := request w in
  match res with
  | Rejected e => (Throw e, c, w')
  | Replied statusCode bodyText =>
      if (statusCode >=? 400)%Z then (Throw (fetchFailed statusCode), c, w')
      else
        match bodyText with
        | Throw e => (Throw e, c, w')
        | Ok text =>
            (Ok text,
             {| m3uText := Some text;
                parsed := Some (parseM3U text);
                fetchedAt := now |},
             w')
        end
  end.

(** [fetchM3U], one call run to completion: [now] is what [Date.now()]
    returns, [CACHE_TTL_MS] the configured number of milliseconds, and the
    state is the cache and the upstream. The guard is
    [cache.m3uText && now - cache.fetchedAt < CACHE_TTL_MS]. *)
Definition fetchM3U (CACHE_TTL_MS now : Z) (c : cache) (w : upstream)
  : result (list N) * cache * upstream :=
  match m3uText c with
  | Some text =>
      if JS.truthy text && (now - fetchedAt c <? CACHE_TTL_MS)%Z
      then (Ok text, c, w)
      else refresh now c w
  | None => refresh now c w
  end.

(** ** The access gate *)

(** The values [okUserPass] can be given for [pass]. *)
Inductive value :=
| VUndefined
| VNull
| VString (s : list N).

(** [pass || ""] *)
Definition passOrEmpty (pass : value) : list N :=
  match pass with
  | VString s => if JS.truthy s then s else []
  | VUndefined | VNull => []
  end.

Definition okUserPass (ALLOW_USERS : gmap (list N) (list N))
    (user : list N) (pass : value) : bool :=
  if Nat.eqb (size ALLOW_USERS) 0 then true
  else
    match ALLOW_USERS !! user with
    | Some allowedPass => JS.eqb allowedPass (passOrEmpty pass)
    | None => false
    end.

(** The callback of [forEach] in [parseAllowUsers]: [u] and [p] are the
    first two pieces of [pair.split(":")]. *)
Definition addPair (map : gmap (list N) (list N)) (pair : list N)
  : gmap (list N) (list N) :=
  let pieces := JS.splitOn JS.COLON pair in
  let u := default [] (pieces !! 0%nat) in
  let p := pieces !! 1%nat in
  if JS.truthy u then <[u := JS.orElse p []]> map else map.

(** [parseAllowUsers], given the value of [process.env.ALLOW_USERS]. *)
Definition parseAllowUsers (env : option (list N)) : gmap (list N) (list N) :=
  let raw := JS.orElse env [] in
  fold_left addPair
    (filter (fun s => JS.truthy s = true) (map JS.trim (JS.splitOn JS.COMMA raw)))
    ∅.

(** A parameter of [req.query] with its default [""], through [String]:
    absent parameters and string parameters. *)
Definition queryString (v : option (list N)) : list N := default [] v.

(** The gate as the two handlers call it. *)
Definition requestAllowed (ALLOW_USERS : gmap (list N) (list N))
    (username password : option (list N)) : bool :=
  okUserPass ALLOW_USERS (queryString username) (VString (queryString password)).

(** ** The body of the [/get.php] handler *)

(** [GetSubstitution] for a string pattern (no captures): [$$] is a dollar,
    [$&] the matched text, [$`] the text before the match, [$'] the text
    after it, and every other dollar stands for itself. *)
Fixpoint getSubstitution (matched before after repl : list N) : list N :=
  match repl with
  | [] => []
  | c :: r =>
      if (c =? JS.DOLLAR)%N then
        match r with
        | d :: r' =>
            if (d =? JS.DOLLAR)%N then
              JS.DOLLAR :: getSubstitution matched before after r'
            else if (d =? 38)%N then
              matched ++ getSubstitution matched before after r'
            else if (d =? 96)%N then
              before ++ getSubstitution matched before after r'
            else if (d =? 39)%N then
              after ++ getSubstitution matched before after r'
            else c :: getSubstitution matched before after r
        | [] => [c]
        end
      else c :: getSubstitution matched before after r
  end.

(** [s.replaceAll(pat, repl)] for a non-empty string [pat], read from left to
    right: [before] is the text already passed (reversed) and [skip] the
    number of characters left of the occurrence just replaced. *)
Fixpoint replaceAllFrom (pat repl before : list N) (skip : nat) (s : list N)
  : list N :=
  match s with
  | [] => []
  | c :: s' =>
      match skip with
      | S k => replaceAllFrom pat repl (c :: before) k s'
      | O =>
          if JS.startsWith pat s then
            getSubstitution pat (rev before) (drop (length pat) s) repl
            ++ replaceAllFrom pat repl (c :: before) (length pat - 1) s'
          else c :: replaceAllFrom pat repl (c :: before) 0 s'
      end
  end.

Definition replaceAll (pat repl s : list N) : list N :=
  replaceAllFrom pat repl [] 0 s.

Definition EXTM3U : list N := JS.lit "#EXTM3U".

Definition personalize (m3u username password : list N) : list N :=
  replaceAll (JS.lit "{{password}}") password
    (replaceAll (JS.lit "{{username}}") username m3u).

(** [let out = personalized; if (!out.startsWith("#EXTM3U")) out = ...] *)
Definition forceHeader (personalized : list N) : list N :=
  if negb (JS.startsWith EXTM3U personalized)
  then EXTM3U ++ [JS.LF] ++ personalized
  else personalized.

(** The body sent with status 200. *)
Definition playlistBody (m3u username password : list N) : list N :=
  forceHeader (personalize m3u username password).

Record response := {
  status : Z;
  contentType : option (list N);
  body : list N
}.

(** [Error.prototype.toString] *)
Definition errorToString (e : error) : list N :=
  if negb (JS.truthy (errName e)) then errMessage e
  else if negb (JS.truthy (errMessage e)) then errName e
  else errName e ++ JS.lit ": " ++ errMessage e.

(** [(e && e.message) || e] inside a template literal. *)
Definition errorText (e : error) : list N :=
  JS.orElse (Some (errMessage e)) (errorToString e).

(** The handler of [/get.php], given the three query parameters it reads. *)
Definition getPhp (ALLOW_USERS : gmap (list N) (list N)) (CACHE_TTL_MS now : Z)
    (username password type : option (list N)) (c : cache) (w : upstream)
  : response * cache * upstream :=
  if negb (requestAllowed ALLOW_USERS username password) then
    ({| status := 401; contentType := None;
        body := EXTM3U ++ [JS.LF] ++ JS.lit "# Access denied" |}, c, w)
  else
    let '(r, c', w') := fetchM3U CACHE_TTL_MS now c w in
    match r with
    | Ok m3u =>
        ({| status := 200;
            contentType :=
              Some (if JS.eqb (default (JS.lit "m3u_plus") type) (JS.lit "m3u_plus")
                    then JS.lit "application/x-mpegURL" else JS.lit "text/plain");
            body := playlistBody m3u (queryString username) (queryString password) |},
         c', w')
    | Throw e =>
        ({| status := 500; contentType := None;
            body := EXTM3U ++ [JS.LF] ++ JS.lit "# Error: " ++ errorText e |}, c', w')
    end.

(** ** The [/player_api.php] handler *)

(** The clock of the process: the time, in milliseconds, that the n-th
    reading ([Date.now()] or [new Date()]) gives, and the number of readings
    so far. *)
Record clock := {
  reads : nat;
  timeAt : nat -> Z
}.

Definition readClock (k : clock) : Z * clock :=
  (timeAt k (reads k), {| reads := S (reads k); timeAt := timeAt k |}).

(** The object [xtreamServerInfo] returns. *)
Record serverInfo := {
  si_url : list N;
  si_server_protocol : list N;
  si_rtmp_port : Z;
  si_timezone : list N;
  si_timestamp_now : Z;
  si_time_now : list N;
  si_port : Z;
  si_https_port : Z
}.

(** The object [user_info]; [exp_date] is always [null]. *)
Record userInfo := {
  ui_username : list N;
  ui_password : list N;
  ui_auth : Z;
  ui_status : list N;
  ui_is_trial : Z;
  ui_active_cons : Z;
  ui_exp_date : option Z;
  ui_created_at : Z
}.

(** An element of [available_channels]; [custom_sid] is always [null]. *)
Record xtreamChannel := {
  xc_name : list N;
  xc_stream_id : nat;
  xc_stream_type : list N;
  xc_stream_icon : option (list N);
  xc_epg_channel_id : option (list N);
  xc_added : list N;
  xc_category_id : list N;
  xc_custom_sid : option (list N);
  xc_direct_source : option (list N)
}.

(** What [res.json] is given. *)
Inductive apiBody :=
| ApiData (user_info : userInfo) (server_info : serverInfo)
          (available_channels : list xtreamChannel)
| ApiError (error : list N).

Record apiResponse := {
  api_status : Z;
  api_body : apiBody
}.

(** [proto.split(",")[0]] *)
Definition firstPiece (s : list N) : list N :=
  default [] (JS.splitOn JS.COMMA s !! 0%nat).

(** [s.replace("T", " ")]: the first T becomes a space. *)
Fixpoint replaceT (s : list N) : list N :=
  match s with
  | [] => []
  | c :: s' => if (c =? 84)%N then 32%N :: s' else c :: replaceT s'
  end.

(** [iso.slice(0, 19).replace("T", " ")] *)
Definition addedOf (iso : list N) : list N := replaceT (take 19 iso).

Section Handlers.

(** [Date.prototype.toISOString], on the time value of the date. *)
Variable toISOString : Z -> list N.

(** [xtreamServerInfo(req)], given [req.headers]: two readings of the
    clock. *)
Definition xtreamServerInfo (headers : gmap (list N) (list N)) (k : clock)
  : serverInfo * clock :=
  let host :=
    JS.orElse (headers !! JS.lit "x-forwarded-host")
      (JS.orElse (headers !! JS.lit "host") (JS.lit "localhost")) in
  let proto :=
    firstPiece (JS.orElse (headers !! JS.lit "x-forwarded-proto") (JS.lit "http")) in
  let '(t1, k1) := readClock k in
  let '(t2, k2) := readClock k1 in
  ({| si_url := proto ++ JS.lit "://" ++ host;
      si_server_protocol := proto;
      si_rtmp_port := 0;
      si_timezone := JS.lit "UTC";
      si_timestamp_now := (t1 / 1000)%Z;
      si_time_now := toISOString t2;
      si_port := if JS.eqb proto (JS.lit "https") then 443%Z else 80%Z;
      si_https_port := 443 |}, k2).

(** The callback of [(cache.parsed || []).map] in the handler; [t] is the
    time of its [new Date()]. *)
Definition toXtream (t : Z) (c : channel) : xtreamChannel :=
  {| xc_name := name c;
     xc_stream_id := stream_id c;
     xc_stream_type := JS.lit "live";
     xc_stream_icon := tvg_logo c;
     xc_epg_channel_id := tvg_id c;
     xc_added := addedOf (toISOString t);
     xc_category_id := group_title c;
     xc_custom_sid := None;
     xc_direct_source := direct_source c |}.

(** The handler of [/player_api.php], given the headers and the two query
    parameters it reads; the state is the cache, the upstream and the
    clock. *)
Definition playerApi (ALLOW_USERS : gmap (list N) (list N)) (CACHE_TTL_MS : Z)
    (headers : gmap (list N) (list N)) (username password : option (list N))
    (c : cache) (w : upstream) (k : clock)
  : apiResponse * cache * upstream * clock :=
  let u := queryString username in
  let p := queryString password in
  let allowed := okUserPass ALLOW_USERS u (VString p) in
  let '(t0, k0) := readClock k in
  let user_info :=
    {| ui_username := u;
       ui_password := p;
       ui_auth := if allowed then 1%Z else 0%Z;
       ui_status := if allowed then JS.lit "Active" else JS.lit "Disabled";
       ui_is_trial := 0;
       ui_active_cons := 1;
       ui_exp_date := None;
       ui_created_at := (t0 / 1000)%Z |} in
  let '(server_info, k2) := xtreamServerInfo headers k0 in
  if allowed then
    let '(now, k3) := readClock k2 in
    let '(r, c', w') := fetchM3U CACHE_TTL_MS now c w in
    match r with
    | Ok _ =>
        let chans := default [] (parsed c') in
        ({| api_status := 200;
            api_body :=
              ApiData user_info server_info
                (imap (fun i ch => toXtream (timeAt k3 (reads k3 + i)) ch) chans) |},
         c', w',
         {| reads := reads k3 + length chans; timeAt := timeAt k3 |})
    | Throw e =>
        ({| api_status := 500; api_body := ApiError (errorText e) |}, c', w', k3)
    end
  else
    ({| api_status := 200; api_body := ApiData user_info server_info [] |},
     c, w, k2).

End Handlers.

(** ** The vocabulary of the statements, sample texts and sample states *)

(** A string that neither starts nor ends with white space. *)
Definition trimmed (t : list N) : Prop :=
  (forall c t', t = c :: t' -> JS.isWhiteSpace c = false)
  /\ (forall c t', t = t' ++ [c] -> JS.isWhiteSpace c = false).

(** A string of white space only. *)
Definition blank (s : list N) : Prop := Forall (fun c => JS.isWhiteSpace c = true) s.

(** Without one carriage return at the end, when there is one. *)
Fixpoint chomp (l : list N) : list N :=
  match l with
  | [] => []
  | c :: l' =>
      match l' with
      | [] => if (c =? JS.CR)%N then [] else [c]
      | _ :: _ => c :: chomp l'
      end
  end.

(** [chomp] on the last line. *)
Fixpoint chompLast (ls : list (list N)) : list (list N) :=
  match ls with
  | [] => []
  | l :: ls' =>
      match ls' with
      | [] => [chomp l]
      | _ :: _ => l :: chompLast ls'
      end
  end.

(** The lines as the loop of [parseM3U] sees them. *)
Definition trimmedLines (text : list N) : list (list N) :=
  map JS.trim (JS.splitLines text).

(** [text] is empty or ends a line: what follows it starts a new line. *)
Definition lineStart (text : list N) : Prop :=
  text = [] \/ exists p, text = p ++ [JS.LF].

(** A text without a line feed. *)
Definition oneLine (l : list N) : Prop := JS.LF ∉ l.

(** A line the loop takes as a metadata line, and one it takes as the URL of
    the pending entry. *)
Definition isMeta (raw : list N) : Prop :=
  JS.startsWith EXTINF (JS.trim raw) = true.

Definition isUrl (raw : list N) : Prop :=
  JS.trim raw <> [] /\ JS.startsWith HASH (JS.trim raw) = false.

(** The loop run on a text, from a given state. *)
Definition loopText (text : list N) (st : option pending * list pending)
  : option pending * list pending :=
  parseLoop (JS.splitLines text) st.

(** What follows is empty or starts with a line feed. *)
Definition lineEnd (text : list N) : Prop :=
  text = [] \/ exists r, text = JS.LF :: r.

(** Where a pushed entry comes from: a metadata line and a URL line of [L]. *)
Definition pushedFrom (L : list (list N)) (c : pending) : Prop :=
  exists m u, m ∈ L /\ u ∈ L /\ isMeta m /\ isUrl u
              /\ c = setUrl (newPending (JS.trim m)) (JS.trim u).

(** Where the pending entry comes from: a metadata line of [L]. *)
Definition pendingFrom (L : list (list N)) (c : pending) : Prop :=
  exists m, m ∈ L /\ isMeta m /\ c = newPending (JS.trim m).

(** No line of the text is taken as a URL. *)
Definition noUrl (text : list N) : Prop :=
  Forall (fun l => ~ isUrl l) (JS.splitLines text).

(** Boolean versions of [oneLine], [blank] and [noUrl]. *)
Definition oneLineb (l : list N) : bool :=
  forallb (fun c => negb (c =? JS.LF)%N) l.

Definition blankb (s : list N) : bool := forallb JS.isWhiteSpace s.

Definition noUrlb (text : list N) : bool :=
  forallb (fun l => negb (JS.truthy (JS.trim l)) || JS.startsWith HASH (JS.trim l))
          (JS.splitLines text).

(** A double-quoted literal. *)
Definition quoted (s : string) : list N := [JS.DQUOTE] ++ JS.lit s ++ [JS.DQUOTE].

(** The sample text of the specification: two metadata lines, then a URL. *)
Definition sampleTwoMeta : list N :=
  JS.lit "#EXTINF:-1 tvg-name=" ++ quoted "A" ++ JS.lit ",A" ++ [JS.LF]
  ++ JS.lit "#EXTINF:-1 tvg-name=" ++ quoted "B" ++ JS.lit ",B" ++ [JS.LF]
  ++ JS.lit "http://x/b".

(** The entry the sample text yields. *)
Definition entryB : channel :=
  {| id := JS.lit "1"; stream_id := 1; name := JS.lit "B"; title := JS.lit "B";
     tvg_id := None; tvg_logo := None; group_title := JS.lit "Other";
     direct_source := Some (JS.lit "http://x/b") |}.

(** The two metadata lines of the sample text. *)
Definition metaA : list N := JS.lit "#EXTINF:-1 tvg-name=" ++ quoted "A" ++ JS.lit ",A".
Definition metaB : list N := JS.lit "#EXTINF:-1 tvg-name=" ++ quoted "B" ++ JS.lit ",B".

(** The text of a metadata line after the marker, its attributes and its
    title. *)
Definition afterMarker (raw : list N) : list N :=
  JS.substringFrom (Z.of_nat (length EXTINF)) (JS.trim raw).

Definition attrsOfLine (raw : list N) : gmap (list N) (list N) :=
  parseAttributes (metaOf (afterMarker raw)).

Definition titleOfLine (raw : list N) : list N := titleOf (afterMarker raw).

(** An attribute that is absent or empty. *)
Definition missing (a : option (list N)) : Prop := a = None \/ a = Some [].


(** The category rule of the specification. *)
Definition categoryRule (groupTitle : option (list N)) (g : list N) : Prop :=
  (forall v, groupTitle = Some v -> v <> [] -> g = v)
  /\ (missing groupTitle -> g = JS.lit "Other").


(** Metadata lines with and without name, title, identifier and group, each
    followed by a URL line. *)
Definition url1 : list N := [JS.LF] ++ JS.lit "http://x/1".

Definition sampleTitleOnly : list N :=
  JS.lit "#EXTINF:-1 tvg-id=" ++ quoted "id1" ++ JS.lit ",Show X" ++ url1.
Definition sampleNamed : list N :=
  JS.lit "#EXTINF:-1 tvg-name=" ++ quoted "News" ++ JS.lit " tvg-id=" ++ quoted "id1"
  ++ JS.lit " group-title=" ++ quoted "News" ++ JS.lit ",News HD" ++ url1.
Definition sampleEmptyGroup : list N :=
  JS.lit "#EXTINF:-1 group-title=" ++ quoted "" ++ JS.lit ",T" ++ url1.


(** An upstream that answers every request with status 200 and one body. *)
Definition steady (text : list N) : upstream :=
  {| requests := 0; answer := fun _ => Replied 200 (Ok text) |}.

(** An upstream that answers every request with one status and no body of
    interest. *)
Definition failing (statusCode : Z) : upstream :=
  {| requests := 0; answer := fun _ => Replied statusCode (Ok []) |}.

(** An upstream whose first answer is an empty body and whose later answers
    are a playlist. *)
Definition emptyThenPlaylist : upstream :=
  {| requests := 0;
     answer := fun n =>
       match n with
       | O => Replied 200 (Ok [])
       | S _ => Replied 200 (Ok (JS.lit "#EXTM3U"))
       end |}.

(** A cache filled at time 0 by a successful fetch of [text]. *)
Definition filled (text : list N) : cache :=
  {| m3uText := Some text; parsed := Some (parseM3U text); fetchedAt := 0 |}.

(** The cache after a successful fetch of [text] at time [now]. *)
Definition replaced (now : Z) (text : list N) : cache :=
  {| m3uText := Some text; parsed := Some (parseM3U text); fetchedAt := now |}.

(** The upstream after one more request. *)
Definition asked (w : upstream) : upstream :=
  {| requests := S (requests w); answer := answer w |}.

(** The first call of a process, at time 1000, on [emptyThenPlaylist]. *)
Definition afterEmptyFetch : result (list N) * cache * upstream :=
  fetchM3U 300000 1000 initialCache emptyThenPlaylist.

(** The outcomes [fetchM3U] treats as a failed retrieval: the request
    rejects, the status is 400 or more, or reading the body rejects. *)
Definition failure (o : outcome) : Prop :=
  match o with
  | Rejected _ => True
  | Replied statusCode bodyText =>
      (400 <= statusCode)%Z \/ exists e, bodyText = Throw e
  end.

(** The call goes to the upstream: nothing usable is cached, or the cached
    text is as old as the TTL. *)
Definition stale (CACHE_TTL_MS now : Z) (c : cache) : Prop :=
  m3uText c = None \/ m3uText c = Some []
  \/ (CACHE_TTL_MS <= now - fetchedAt c)%Z.

(** Names and passwords. *)
Definition alice : list N := JS.lit "alice".
Definition bob : list N := JS.lit "bob".
Definition secret : list N := JS.lit "secret".

(** The allow-list with the one entry alice:secret. *)
Definition onlyAlice : gmap (list N) (list N) := {[ alice := secret ]}.

(** ** The vocabulary of the further properties *)

(** No line of the text is taken as a metadata line. *)
Definition noMeta (text : list N) : Prop :=
  Forall (fun l => ~ isMeta l) (JS.splitLines text).

Definition noMetab (text : list N) : bool :=
  forallb (fun l => negb (JS.startsWith EXTINF (JS.trim l))) (JS.splitLines text).

(** A comment line: it starts with a hash and is not a metadata line. *)
Definition isComment (raw : list N) : Prop :=
  JS.startsWith HASH (JS.trim raw) = true
  /\ JS.startsWith EXTINF (JS.trim raw) = false.

(** The numbers of lines the loop takes as metadata lines and as lines that
    can be URLs. *)
Definition metaCount (text : list N) : nat :=
  length (List.filter (fun l => JS.startsWith EXTINF (JS.trim l)) (JS.splitLines text)).

Definition urlCount (text : list N) : nat :=
  length (List.filter
            (fun l => JS.truthy (JS.trim l) && negb (JS.startsWith HASH (JS.trim l)))
            (JS.splitLines text)).

(** One for a pending entry, zero for none. *)
Definition held (current : option pending) : nat :=
  match current with Some _ => 1 | None => 0 end.

(** A playlist written the usual way: for each item a metadata line and a
    URL line, each ended by a line feed. *)
Definition itemText (item : list N * list N) : list N :=
  fst item ++ [JS.LF] ++ snd item ++ [JS.LF].

Definition playlistOf (items : list (list N * list N)) : list N :=
  concat (map itemText items).

Definition wellFormedItem (item : list N * list N) : Prop :=
  oneLine (fst item) /\ isMeta (fst item) /\ oneLine (snd item) /\ isUrl (snd item).

(** The entry an item gives at position [i]. *)
Definition entryOf (i : nat) (item : list N * list N) : channel :=
  toChannel i (setUrl (newPending (JS.trim (fst item))) (JS.trim (snd item))).

(** Two items. *)
Definition itemA : list N * list N := (metaA, JS.lit "http://x/a").
Definition itemB : list N * list N := (metaB ++ [JS.CR], JS.lit "  http://x/b" ++ [JS.CR]).

(** A character of a key after its first one. *)
Definition wordOrHyphen (c : N) : bool := JS.isWord c || (c =? JS.HYPHEN)%N.

(** A key the regular expression of [parseAttributes] can capture. *)
Definition validKey (k : list N) : Prop :=
  exists c r, k = c :: r /\ JS.isWord c = true
              /\ Forall (fun x => wordOrHyphen x = true) r.

(** [s] holds the attribute: the key, an equals sign and the quoted value. *)
Definition written (s k v : list N) : Prop :=
  exists a b, s = a ++ k ++ [JS.EQUALS; JS.DQUOTE] ++ v ++ [JS.DQUOTE] ++ b.

(** An attribute as it is written in a metadata line: a space, the key, an
    equals sign and the quoted value. *)
Definition attrText (kv : list N * list N) : list N :=
  32%N :: fst kv ++ [JS.EQUALS; JS.DQUOTE] ++ snd kv ++ [JS.DQUOTE].

Definition attrsText (kvs : list (list N * list N)) : list N :=
  concat (map attrText kvs).

(** The attributes put into a map one after the other. *)
Definition putAll (kvs : list (list N * list N)) (m : gmap (list N) (list N))
  : gmap (list N) (list N) :=
  fold_left (fun m kv => <[fst kv := snd kv]> m) kvs m.

Definition validAttr (kv : list N * list N) : Prop :=
  validKey (fst kv) /\ fst kv <> JS.lit "__proto__" /\ JS.DQUOTE ∉ snd kv.

(** A duration as it stands after the marker: no white space, no equals
    sign, no comma, and not empty. *)
Definition plainChar (c : N) : Prop :=
  JS.isWhiteSpace c = false /\ c <> JS.EQUALS /\ c <> JS.COMMA.

Definition validDuration (d : list N) : Prop := d <> [] /\ Forall plainChar d.

(** A metadata line written the usual way. *)
Definition metaLine (d : list N) (kvs : list (list N * list N)) (t : list N) : list N :=
  EXTINF ++ d ++ attrsText kvs ++ JS.COMMA :: t.

(** Sample attributes. *)
Definition sampleAttrs : list (list N * list N) :=
  [(JS.lit "tvg-id", JS.lit "id1"); (JS.lit "group-title", JS.lit "News");
   (JS.lit "tvg-id", JS.lit "id2")].

(** A character of a user name or a password as they are usually written:
    no white space, no comma, no colon. *)
Definition credChar (c : N) : Prop :=
  JS.isWhiteSpace c = false /\ c <> JS.COMMA /\ c <> JS.COLON.

Definition validCred (up : list N * list N) : Prop :=
  fst up <> [] /\ Forall credChar (fst up) /\ Forall credChar (snd up).

(** An entry of the allow-list as it is written: user, colon, password. *)
Definition credText (up : list N * list N) : list N :=
  fst up ++ [JS.COLON] ++ snd up.

(** The allow-list as it is written: the entries with commas between. *)
Fixpoint allowText (ups : list (list N * list N)) : list N :=
  match ups with
  | [] => []
  | up :: rest =>
      match rest with
      | [] => credText up
      | _ :: _ => credText up ++ [JS.COMMA] ++ allowText rest
      end
  end.

(** A text of commas and white space only. *)
Definition onlySeparators (raw : list N) : Prop :=
  Forall (fun c => c = JS.COMMA \/ JS.isWhiteSpace c = true) raw.

(** Sample credentials. *)
Definition sampleCreds : list (list N * list N) :=
  [(alice, secret); (bob, []); (alice, JS.lit "s3cret")].

(** The cache holds the parse of the text it holds. *)
Definition consistent (c : cache) : Prop :=
  parsed c = (parseM3U <$> m3uText c).

(** Calls of [fetchM3U] one after the other, at the given times. *)
Fixpoint calls (CACHE_TTL_MS : Z) (nows : list Z) (c : cache) (w : upstream)
  : cache * upstream :=
  match nows with
  | [] => (c, w)
  | now :: rest =>
      let '(_, c', w') := fetchM3U CACHE_TTL_MS now c w in
      calls CACHE_TTL_MS rest c' w'
  end.

(** The opening brace, with which both placeholders start. *)
Definition BRACE : N := 123%N.

Definition USERNAME : list N := JS.lit "{{username}}".
Definition PASSWORD : list N := JS.lit "{{password}}".

(** The body of the 401 answer and the start of the body of a 500 answer
    of [/get.php]. *)
Definition deniedBody : list N := EXTM3U ++ [JS.LF] ++ JS.lit "# Access denied".
Definition errorBody (message : list N) : list N :=
  EXTM3U ++ [JS.LF] ++ JS.lit "# Error: " ++ message.

(** The value of the content type header by the [type] parameter. *)
Definition contentTypeOf (type : option (list N)) : list N :=
  if JS.eqb (default (JS.lit "m3u_plus") type) (JS.lit "m3u_plus")
  then JS.lit "application/x-mpegURL" else JS.lit "text/plain".

(** The clock after [n] more readings. *)
Definition ticked (n : nat) (k : clock) : clock :=
  {| reads := reads k + n; timeAt := timeAt k |}.

(** Sample headers, a sample clock and a sample date format. *)
Definition proxied : gmap (list N) (list N) :=
  <[JS.lit "x-forwarded-proto" := JS.lit "https,http"]>
    (<[JS.lit "host" := JS.lit "tv.example"]> ∅).

Definition clockAt (t : Z) : clock :=
  {| reads := 0; timeAt := fun n => (t + Z.of_nat n)%Z |}.

Definition sampleISO (t : Z) : list N := JS.lit "2024-01-02T03:04:05.678Z".

(** The letter T, which stands between date and time in an ISO string. *)
Definition LETTER_T : N := 84%N.

(** Lines the loop passes over: neither metadata lines nor URL lines, that
    is, blank lines and comments. *)
Definition quiet (ls : list (list N)) : Prop :=
  Forall (fun l => ~ isMeta l /\ ~ isUrl l) ls.

(** The entries the loop of [parseM3U] gives on a list of lines. *)
Definition entriesOfLines (ls : list (list N)) : list channel :=
  imap toChannel (snd (parseLoop ls (None, []))).

(** The lines of the text stand as [l1], the metadata line [m], the quiet
    lines [mid], the URL line [u] and [l2], and [l1] gives [i] entries: [m]
    and [u] are the two lines of entry [i]. *)
Definition linesOfEntry (text : list N) (i : nat) (m u : list N) : Prop :=
  exists l1 mid l2,
    JS.splitLines text = l1 ++ m :: mid ++ u :: l2
    /\ isMeta m /\ quiet mid /\ isUrl u
    /\ length (entriesOfLines l1) = i.

(** Where an entry of the state and the pending entry come from. *)
Definition originOf (L : list (list N)) (i : nat) (c : pending) : Prop :=
  exists l1 m mid u l2,
    L = l1 ++ m :: mid ++ u :: l2 /\ isMeta m /\ quiet mid /\ isUrl u
    /\ length (snd (parseLoop l1 (None, []))) = i
    /\ c = setUrl (newPending (JS.trim m)) (JS.trim u).

Definition pendingOrigin (L : list (list N)) (chans : list pending) (c : pending)
  : Prop :=
  exists l1 m mid,
    L = l1 ++ m :: mid /\ isMeta m /\ quiet mid
    /\ snd (parseLoop l1 (None, [])) = chans
    /\ c = newPending (JS.trim m).

(** Two entries: the first with a group, the second without one. *)
Definition sampleTwoGroups : list N :=
  JS.lit "#EXTINF:-1 group-title=" ++ quoted "News" ++ JS.lit ",One" ++ url1
  ++ [JS.LF] ++ JS.lit "#EXTINF:-1,Two" ++ url1.

(** The error a failed retrieval throws: the one the request rejects with,
    the one [fetchM3U] makes for a status of 400 or more, or the one the
    reading of the body rejects with. *)
Definition thrown (o : outcome) (e : error) : Prop :=
  o = Rejected e
  \/ (exists statusCode bodyText,
        o = Replied statusCode bodyText /\ (400 <= statusCode)%Z
        /\ e = fetchFailed statusCode)
  \/ (exists statusCode,
        o = Replied statusCode (Throw e) /\ (statusCode < 400)%Z).

(** An upstream that cannot be reached, and the error of its requests. *)
Definition netError : error :=
  {| errName := JS.lit "Error"; errMessage := JS.lit "connect ECONNREFUSED" |}.

Definition unreachable : upstream :=
  {| requests := 0; answer := fun _ => Rejected netError |}.

(** ** The definitions at work *)

Example splitLines_ex :
  JS.splitLines (JS.lit "a" ++ [JS.CR; JS.LF] ++ JS.lit "b" ++ [JS.LF; JS.CR])
  = [JS.lit "a"; JS.lit "b"; [JS.CR]]
  /\ JS.splitLines [] = [[]]
  /\ JS.splitLines (JS.lit "a" ++ [JS.CR; JS.CR; JS.LF]) = [JS.lit "a" ++ [JS.CR]; []].
Proof. repeat split; reflexivity. Qed.

Example trim_ex :
  JS.trim ([65279; 32; 9]%N ++ JS.lit "x y  " ++ [JS.CR]) = JS.lit "x y".
Proof. reflexivity. Qed.

Example indexOf_ex :
  JS.indexOf JS.COMMA (JS.lit "-1 a,b,c") = 4%Z
  /\ JS.indexOf JS.COMMA (JS.lit "-1 a") = (-1)%Z.
Proof. split; reflexivity. Qed.

Example ofNat_ex :
  JS.ofNat 120 = JS.lit "120" /\ JS.ofZ 503 = JS.lit "503" /\ JS.ofZ 0 = JS.lit "0".
Proof. repeat split; reflexivity. Qed.

Example parseAttributes_ex :
  parseAttributes (JS.lit "-1 tvg-id=" ++ quoted "x" ++ JS.lit " tvg-name=" ++ quoted "y z" ++ JS.lit " tvg-id=" ++ quoted "w")
  = <[JS.lit "tvg-name" := JS.lit "y z"]> (<[JS.lit "tvg-id" := JS.lit "w"]> ∅).
Proof. vm_compute. reflexivity. Qed.

Example parse_sampleTwoMeta :
  parseM3U sampleTwoMeta =
  [ {| id := JS.lit "1"; stream_id := 1; name := JS.lit "B"; title := JS.lit "B";
       tvg_id := None; tvg_logo := None; group_title := JS.lit "Other";
       direct_source := Some (JS.lit "http://x/b") |} ].
Proof. vm_compute. reflexivity. Qed.

Example parseAllowUsers_ex :
  parseAllowUsers (Some (JS.lit "alice:secret, bob , carol:,:x,dave:a:b"))
  = <[JS.lit "alice" := JS.lit "secret"]>
      (<[JS.lit "bob" := []]>
         (<[JS.lit "carol" := []]> (<[JS.lit "dave" := JS.lit "a"]> ∅))).
Proof. vm_compute. reflexivity. Qed.

Example replaceAll_ex :
  personalize (JS.lit "u={{username}}&p={{password}}{{username}}{{user")
    (JS.lit "al$&$$") (JS.lit "$1x")
  = JS.lit "u=al{{username}}$&p=$1xal{{username}}${{user".
Proof. vm_compute. reflexivity. Qed.

(** ** Facts about [trim] *)

Section Trim.

Lemma dropWhile_split p s :
  exists a, s = a ++ JS.dropWhile p s /\ Forall (fun c => p c = true) a.
Proof.
  induction s as [|c s [a [E Ha]]]; simpl.
  - exists []. split; [reflexivity | constructor].
  - destruct (p c) eqn:Hc.
    + exists (c :: a). split; [simpl; congruence | now constructor].
    + exists []. split; [reflexivity | constructor].
Qed.

Lemma dropWhile_head p s c t :
  JS.dropWhile p s = c :: t -> p c = false.
Proof.
  induction s as [|x s IH]; simpl; [discriminate|].
  destruct (p x) eqn:Hx; [exact IH|].
  intros H; inversion H; subst; exact Hx.
Qed.

Lemma dropWhile_all p a s :
  Forall (fun c => p c = true) a -> JS.dropWhile p (a ++ s) = JS.dropWhile p s.
Proof.
  induction 1 as [|c a Hc _ IH]; simpl; [reflexivity|]. now rewrite Hc.
Qed.

Lemma dropWhile_stop p c s : p c = false -> JS.dropWhile p (c :: s) = c :: s.
Proof. intros H; simpl; now rewrite H. Qed.

Lemma blank_rev s : blank s -> blank (rev s).
Proof. apply List.Forall_rev. Qed.

(** [trim] is determined by a decomposition into white space, a trimmed
    core, and white space. *)
Lemma trim_unique a t b :
  blank a -> blank b -> trimmed t -> JS.trim (a ++ t ++ b) = t.
Proof.
  intros Ha Hb [Hh Hl]. unfold JS.trim, JS.trimEnd, JS.trimStart.
  rewrite (dropWhile_all _ a) by exact Ha.
  destruct t as [|c t].
  - simpl. rewrite <- (app_nil_r b) at 1. rewrite (dropWhile_all _ b) by exact Hb.
    reflexivity.
  - change ((c :: t) ++ b) with (c :: (t ++ b)).
    rewrite dropWhile_stop by (eapply Hh; reflexivity).
    change (c :: (t ++ b)) with ((c :: t) ++ b).
    rewrite rev_app_distr.
    rewrite (dropWhile_all _ (rev b)) by (now apply blank_rev).
    destruct (rev (c :: t)) as [|d r] eqn:E.
    + apply (f_equal (@length N)) in E. rewrite length_rev in E. discriminate.
    + rewrite dropWhile_stop.
      * rewrite <- E. apply rev_involutive.
      * apply (Hl d (rev r)). rewrite <- (rev_involutive (c :: t)), E. reflexivity.
Qed.

(** What [trim] returns: the input without a white prefix and a white suffix,
    and nothing more can be removed. *)
Lemma trim_spec s :
  exists a b, s = a ++ JS.trim s ++ b /\ blank a /\ blank b /\ trimmed (JS.trim s).
Proof.
  unfold JS.trim, JS.trimEnd, JS.trimStart.
  destruct (dropWhile_split JS.isWhiteSpace s) as [a [Ea Ha]].
  set (u := JS.dropWhile JS.isWhiteSpace s) in *.
  destruct (dropWhile_split JS.isWhiteSpace (rev u)) as [b [Eb Hb]].
  set (v := JS.dropWhile JS.isWhiteSpace (rev u)) in *.
  exists a, (rev b). repeat split.
  - rewrite <- rev_app_distr, <- Eb, rev_involutive. exact Ea.
  - exact Ha.
  - now apply blank_rev.
  - intros c t' E.
    assert (Hu : u = rev v ++ rev b) by (rewrite <- rev_app_distr, <- Eb, rev_involutive; reflexivity).
    rewrite E in Hu. simpl in Hu.
    apply (dropWhile_head JS.isWhiteSpace s c (t' ++ rev b)). exact Hu.
  - intros c t' E.
    apply (dropWhile_head JS.isWhiteSpace (rev u) c (rev t')).
    fold v. rewrite <- (rev_involutive v), E, rev_app_distr. reflexivity.
Qed.

Lemma trim_trimmed s : trimmed (JS.trim s).
Proof. destruct (trim_spec s) as (a & b & _ & _ & _ & H); exact H. Qed.

Lemma trim_idem s : JS.trim (JS.trim s) = JS.trim s.
Proof.
  rewrite <- (app_nil_r (JS.trim s)) at 1.
  apply (trim_unique [] (JS.trim s) []);
    [constructor | constructor | apply trim_trimmed].
Qed.

Lemma trim_blank s : blank s -> JS.trim s = [].
Proof.
  intros H. rewrite <- (app_nil_r s).
  apply (trim_unique s [] []); [exact H | constructor |].
  split; intros c t' E; [discriminate | now destruct t'].
Qed.

Lemma trim_snoc s c : JS.isWhiteSpace c = true -> JS.trim (s ++ [c]) = JS.trim s.
Proof.
  intros Hc. destruct (trim_spec s) as (a & b & E & Ha & Hb & Ht).
  rewrite E at 1. rewrite <- !app_assoc.
  apply trim_unique; [exact Ha | | exact Ht].
  apply Forall_app; split; [exact Hb | repeat constructor; exact Hc].
Qed.

End Trim.

(** ** Facts about [splitLines] *)

Section Lines.

Lemma list_ind2 {A} (P : list A -> Prop) :
  P [] -> (forall c, P [c]) ->
  (forall c d s, P s -> P (d :: s) -> P (c :: d :: s)) ->
  forall s, P s.
Proof.
  intros H0 H1 H2 s.
  assert (H : P s /\ forall c, P (c :: s)).
  { induction s as [|x s [IHa IHb]].
    - split; [exact H0 | exact H1].
    - split; [apply IHb | intros c; apply H2; [exact IHa | apply IHb]]. }
  exact (proj1 H).
Qed.

Lemma splitLines_cons c rest :
  JS.splitLines (c :: rest) =
  if (c =? JS.LF)%N then [] :: JS.splitLines rest
  else
    match rest with
    | c2 :: rest2 =>
        if ((c =? JS.CR) && (c2 =? JS.LF))%N then [] :: JS.splitLines rest2
        else JS.consFirst c (JS.splitLines rest)
    | [] => JS.consFirst c (JS.splitLines rest)
    end.
Proof. destruct rest; reflexivity. Qed.

Lemma splitLines_nonempty s : exists l ls, JS.splitLines s = l :: ls.
Proof.
  induction s as [|c|c d s IHs IHd] using list_ind2.
  - now exists [], [].
  - rewrite splitLines_cons. destruct (c =? JS.LF)%N; simpl; eauto.
  - rewrite splitLines_cons. destruct (c =? JS.LF)%N; [eauto|].
    destruct (_ && _); [eauto|].
    destruct IHd as (l & ls & ->). simpl. eauto.
Qed.

(** A text that starts with a character is not split into one empty line. *)
Lemma splitLines_cons_shape c s :
  (exists l ls, JS.splitLines (c :: s) = (c :: l) :: ls)
  \/ (exists l ls, JS.splitLines (c :: s) = [] :: l :: ls).
Proof.
  rewrite splitLines_cons.
  destruct (c =? JS.LF)%N.
  - right. destruct (splitLines_nonempty s) as (l & ls & ->). eauto.
  - destruct s as [|d s].
    + left. simpl. eauto.
    + destruct (_ && _).
      * right. destruct (splitLines_nonempty s) as (l & ls & ->). eauto.
      * left. destruct (splitLines_nonempty (d :: s)) as (l & ls & ->). simpl. eauto.
Qed.

Lemma chompLast_cons l ls : ls <> [] -> chompLast (l :: ls) = l :: chompLast ls.
Proof. destruct ls; [congruence | reflexivity]. Qed.

Lemma chompLast_consFirst c s :
  chompLast (JS.consFirst c (JS.splitLines s)) = JS.consFirst c (chompLast (JS.splitLines s))
  \/ s = [].
Proof.
  destruct s as [|d s]; [now right | left].
  destruct (splitLines_cons_shape d s) as [(l & ls & ->) | (l & ls & ->)].
  - destruct ls; reflexivity.
  - reflexivity.
Qed.

Lemma consFirst_app c xs ys :
  xs <> [] -> JS.consFirst c (xs ++ ys) = JS.consFirst c xs ++ ys.
Proof. destruct xs; [congruence | reflexivity]. Qed.

Lemma chompLast_nonempty ls : ls <> [] -> chompLast ls <> [].
Proof. destruct ls as [|l [|l' ls]]; simpl; congruence. Qed.

Lemma splitLines_ne s : JS.splitLines s <> [].
Proof. destruct (splitLines_nonempty s) as (l & ls & ->). discriminate. Qed.

(** Splitting at a line feed: the text before it gives its lines, the last
    one without the carriage return the separator takes, and the text after
    it gives the others. *)
Lemma splitLines_app_LF a b :
  JS.splitLines (a ++ JS.LF :: b) = chompLast (JS.splitLines a) ++ JS.splitLines b.
Proof.
  induction a as [|c|c d a IHa IHd] using list_ind2.
  - reflexivity.
  - change ([c] ++ JS.LF :: b) with (c :: JS.LF :: b).
    rewrite !splitLines_cons.
    destruct (c =? JS.LF)%N eqn:E1; [reflexivity|].
    cbn [JS.splitLines JS.consFirst chompLast chomp].
    destruct (c =? JS.CR)%N; reflexivity.
  - change ((c :: d :: a) ++ JS.LF :: b) with (c :: d :: (a ++ JS.LF :: b)).
    rewrite (splitLines_cons c (d :: a)), (splitLines_cons c (d :: _)).
    destruct (c =? JS.LF)%N.
    + change (d :: (a ++ JS.LF :: b)) with ((d :: a) ++ JS.LF :: b).
      rewrite IHd, chompLast_cons by apply splitLines_ne. reflexivity.
    + destruct (_ && _).
      * rewrite IHa, chompLast_cons by apply splitLines_ne. reflexivity.
      * change (d :: (a ++ JS.LF :: b)) with ((d :: a) ++ JS.LF :: b).
        rewrite IHd.
        rewrite consFirst_app by (apply chompLast_nonempty, splitLines_ne).
        destruct (chompLast_consFirst c (d :: a)) as [-> | ?]; [reflexivity | discriminate].
Qed.

Lemma trim_chomp l : JS.trim (chomp l) = JS.trim l.
Proof.
  assert (H : chomp l = l \/ l = chomp l ++ [JS.CR]).
  { induction l as [|c l IH]; [now left|].
    cbn [chomp]. destruct l as [|d l].
    - destruct (c =? JS.CR)%N eqn:E; [right | now left].
      apply N.eqb_eq in E. now subst.
    - destruct IH as [-> | IH]; [now left | right].
      rewrite IH at 1. reflexivity. }
  destruct H as [-> | H]; [reflexivity|].
  rewrite H at 2. symmetry. now apply trim_snoc.
Qed.

Lemma map_trim_chompLast ls : map JS.trim (chompLast ls) = map JS.trim ls.
Proof.
  induction ls as [|l ls IH]; [reflexivity|].
  destruct ls as [|l' ls].
  - cbn [chompLast map]. now rewrite trim_chomp.
  - rewrite chompLast_cons by discriminate. cbn [map] in *. now rewrite IH.
Qed.

Lemma trimmedLines_app_LF a b :
  trimmedLines (a ++ JS.LF :: b) = trimmedLines a ++ trimmedLines b.
Proof.
  unfold trimmedLines. now rewrite splitLines_app_LF, map_app, map_trim_chompLast.
Qed.

Lemma trimmedLines_nil : trimmedLines [] = [[]].
Proof. reflexivity. Qed.

Lemma splitLines_oneLine l : oneLine l -> JS.splitLines l = [l].
Proof.
  unfold oneLine. induction l as [|c|c d l IHl IHd] using list_ind2; intros H.
  - reflexivity.
  - rewrite splitLines_cons. destruct (c =? JS.LF)%N eqn:E; [|reflexivity].
    apply N.eqb_eq in E. subst. exfalso. apply H. constructor.
  - rewrite splitLines_cons.
    destruct (c =? JS.LF)%N eqn:E.
    { apply N.eqb_eq in E. subst. exfalso. apply H. constructor. }
    destruct (d =? JS.LF)%N eqn:E2.
    { apply N.eqb_eq in E2. subst. exfalso. apply H. constructor. constructor. }
    rewrite andb_false_r. rewrite IHd; [reflexivity|].
    intros Hin. apply H. now constructor.
Qed.

End Lines.

(** ** Facts about the loop of [parseM3U] *)

Section Loop.

Implicit Types st : option pending * list pending.

Lemma parseStep_trim st raw : parseStep st (JS.trim raw) = parseStep st raw.
Proof. unfold parseStep. now rewrite trim_idem. Qed.

Lemma parseStep_blank st raw : JS.trim raw = [] -> parseStep st raw = st.
Proof. intros H. unfold parseStep. rewrite H. now destruct st. Qed.

Lemma parseStep_meta st raw :
  isMeta raw -> parseStep st raw = (Some (newPending (JS.trim raw)), snd st).
Proof.
  unfold isMeta. intros H. unfold parseStep. destruct st as [cur chans].
  rewrite H. destruct (JS.trim raw); [discriminate | reflexivity].
Qed.

Lemma parseLoop_app l1 l2 st :
  parseLoop (l1 ++ l2) st = parseLoop l2 (parseLoop l1 st).
Proof. apply fold_left_app. Qed.

Lemma parseLoop_ext l1 l2 st :
  map JS.trim l1 = map JS.trim l2 -> parseLoop l1 st = parseLoop l2 st.
Proof.
  revert l2 st. induction l1 as [|x l1 IH]; intros [|y l2] st H; try discriminate.
  - reflexivity.
  - inversion H as [[Hx Hl]]. cbn [parseLoop fold_left].
    rewrite <- (parseStep_trim st x), Hx, parseStep_trim. now apply IH.
Qed.


Lemma loopText_app_LF a b st :
  loopText (a ++ JS.LF :: b) st = loopText b (loopText a st).
Proof.
  unfold loopText. rewrite splitLines_app_LF, parseLoop_app. f_equal.
  apply parseLoop_ext, map_trim_chompLast.
Qed.

Lemma loopText_nil st : loopText [] st = st.
Proof. unfold loopText. simpl. now apply parseStep_blank. Qed.

Lemma loopText_lineStart pre b st :
  lineStart pre -> loopText (pre ++ b) st = loopText b (loopText pre st).
Proof.
  intros [-> | [p ->]].
  - now rewrite loopText_nil.
  - rewrite <- app_assoc. cbn [app]. rewrite !loopText_app_LF.
    now rewrite (loopText_nil (loopText p st)).
Qed.

Lemma loopText_oneLine l st : oneLine l -> loopText l st = parseStep st l.
Proof. intros H. unfold loopText. now rewrite splitLines_oneLine. Qed.

Lemma consFirst_elem c ls l x :
  l ∈ JS.consFirst c ls -> x ∈ l -> x = c \/ exists l', l' ∈ ls /\ x ∈ l'.
Proof.
  destruct ls as [|l0 ls]; simpl; intros Hl Hx.
  - apply list_elem_of_singleton in Hl. subst.
    apply list_elem_of_singleton in Hx. now left.
  - apply elem_of_cons in Hl. destruct Hl as [-> | Hl].
    + apply elem_of_cons in Hx. destruct Hx as [-> | Hx]; [now left | right].
      exists l0. split; [constructor | exact Hx].
    + right. exists l. split; [now constructor | exact Hx].
Qed.



(** An invariant of the state that every step on a line of [L] keeps is
    kept by the loop on [L]. *)
Lemma parseLoop_invariant (I : option pending * list pending -> Prop) L :
  (forall st x, x ∈ L -> I st -> I (parseStep st x)) ->
  forall st, I st -> I (parseLoop L st).
Proof.
  intros Hstep.
  assert (H : forall l, (forall x, x ∈ l -> x ∈ L) ->
                        forall st, I st -> I (parseLoop l st)).
  { induction l as [|x l IH]; intros Hsub st Hst; [exact Hst|].
    cbn [parseLoop fold_left]. apply IH.
    - intros y Hy. apply Hsub. now constructor.
    - apply Hstep; [apply Hsub; constructor | exact Hst]. }
  apply H. auto.
Qed.

Lemma parseLoop_pushed L :
  Forall (pushedFrom L) (snd (parseLoop L (None, []))).
Proof.
  pose (I := fun st : option pending * list pending =>
               (forall c, fst st = Some c -> pendingFrom L c)
               /\ Forall (pushedFrom L) (snd st)).
  assert (HI : I (parseLoop L (None, []))).
  { apply parseLoop_invariant.
    - intros [cur chans] x Hx [Hcur Hch]. unfold parseStep.
      destruct (JS.truthy (JS.trim x)) eqn:Et; cbn [negb]; [|now split].
      destruct (JS.startsWith EXTINF (JS.trim x)) eqn:Em.
      + split; [|exact Hch]. intros c Hc. inversion Hc; subst.
        exists x. repeat split; [exact Hx | exact Em].
      + destruct cur as [c|]; [|now split].
        destruct (JS.startsWith HASH (JS.trim x)) eqn:Eh; cbn [negb]; [now split|].
        split; [discriminate|]. cbn [snd].
        apply Forall_app. split; [exact Hch|]. constructor; [|constructor].
        destruct (Hcur c eq_refl) as (m & Hm & Hmeta & ->).
        exists m, x. repeat split; try assumption.
        intros E. rewrite E in Et. discriminate.
    - split; [discriminate | constructor]. }
  exact (proj2 HI).
Qed.

(** Every entry of the result is built from a metadata line and a URL line
    of the text. *)
Lemma parseM3U_source text e :
  e ∈ parseM3U text ->
  exists i m u, m ∈ JS.splitLines text /\ u ∈ JS.splitLines text
                /\ isMeta m /\ isUrl u
                /\ e = toChannel i (setUrl (newPending (JS.trim m)) (JS.trim u)).
Proof.
  unfold parseM3U. cbv zeta. intros H.
  apply elem_of_lookup_imap in H. destruct H as (i & c & -> & Hc).
  pose proof (parseLoop_pushed (JS.splitLines text)) as HF.
  rewrite Forall_forall in HF.
  destruct (HF c) as (m & u & Hm & Hu & Hmeta & Hurl & ->).
  { eapply list_elem_of_lookup_2; eassumption. }
  exists i, m, u. auto 10.
Qed.

End Loop.

Section Strings.

Lemma eqb_eq a b : JS.eqb a b = true <-> a = b.
Proof.
  revert b. induction a as [|x a IH]; intros [|y b]; simpl; try easy.
  rewrite andb_true_iff, N.eqb_eq, IH. split.
  - intros [-> ->]; reflexivity.
  - intros H; inversion H; auto.
Qed.

Lemma startsWith_iff p s : JS.startsWith p s = true <-> exists r, s = p ++ r.
Proof.
  revert s. induction p as [|x p IH]; intros s; simpl.
  - split; [exists s; reflexivity | reflexivity].
  - destruct s as [|y s].
    + split; [discriminate | intros [r H]; discriminate].
    + rewrite andb_true_iff, N.eqb_eq, IH. split.
      * intros [-> [r ->]]. now exists r.
      * intros [r H]. inversion H; subst. split; [reflexivity | now exists r].
Qed.

Lemma startsWith_app p r : JS.startsWith p (p ++ r) = true.
Proof. apply startsWith_iff. now exists r. Qed.


Lemma not_hash_not_extinf l :
  JS.startsWith HASH l = false -> JS.startsWith EXTINF l = false.
Proof.
  intros H. destruct (JS.startsWith EXTINF l) eqn:E; [|reflexivity].
  apply startsWith_iff in E. destruct E as [r ->].
  vm_compute in H. discriminate.
Qed.

(** [indexOf] finds the first occurrence. *)
Lemma indexOf_first c a b :
  c ∉ a -> JS.indexOf c (a ++ c :: b) = Z.of_nat (length a).
Proof.
  induction a as [|x a IH]; intros H; simpl.
  - now rewrite N.eqb_refl.
  - destruct (x =? c)%N eqn:E.
    + apply N.eqb_eq in E. subst. exfalso. apply H. constructor.
    + rewrite IH by (intros Hin; apply H; now constructor).
      destruct (Z.ltb_spec (Z.of_nat (length a)) 0); lia.
Qed.


Lemma titleOf_comma a b :
  JS.COMMA ∉ a -> titleOf (a ++ JS.COMMA :: b) = JS.trim b.
Proof.
  intros H. unfold titleOf. rewrite indexOf_first by exact H.
  destruct (Z.geb_spec (Z.of_nat (length a)) 0); [|lia].
  unfold JS.substringFrom.
  replace (Z.to_nat (Z.of_nat (length a) + 1)) with (length a + 1) by lia.
  rewrite <- drop_drop, drop_app_length. reflexivity.
Qed.



End Strings.

Section Drop.

Implicit Types st : option pending * list pending.

Lemma parseLoop_noUrl ls st :
  Forall (fun l => ~ isUrl l) ls -> snd (parseLoop ls st) = snd st.
Proof.
  intros H. revert st. induction H as [|l ls Hl _ IH]; intros st; [reflexivity|].
  cbn [parseLoop fold_left]. fold (parseLoop ls (parseStep st l)). rewrite IH.
  unfold parseStep. destruct st as [cur chans].
  destruct (JS.truthy (JS.trim l)) eqn:Et; cbn [negb]; [|reflexivity].
  destruct (JS.startsWith EXTINF (JS.trim l)); [reflexivity|].
  destruct cur as [c|]; [|reflexivity].
  destruct (JS.startsWith HASH (JS.trim l)) eqn:Eh; cbn [negb]; [reflexivity|].
  exfalso. apply Hl. split; [|exact Eh].
  intros E. rewrite E in Et. discriminate.
Qed.

Lemma loopText_noUrl text st : noUrl text -> snd (loopText text st) = snd st.
Proof. apply parseLoop_noUrl. Qed.

Lemma noUrl_LF r : noUrl (JS.LF :: r) -> noUrl r.
Proof. unfold noUrl. rewrite splitLines_cons. simpl. now inversion 1. Qed.

Lemma parseM3U_loopText text :
  parseM3U text = imap toChannel (snd (loopText text (None, []))).
Proof. reflexivity. Qed.

(** The state after a metadata line, and after the lines up to the next
    URL line, keeps the entries pushed so far. *)
Lemma loopText_meta_tail m tail st :
  oneLine m -> isMeta m -> lineEnd tail -> noUrl tail ->
  snd (loopText (m ++ tail) st) = snd st.
Proof.
  intros Hone Hmeta [-> | [r ->]] Hno.
  - rewrite app_nil_r, loopText_oneLine, parseStep_meta by assumption. reflexivity.
  - rewrite loopText_app_LF, loopText_noUrl by (now apply noUrl_LF).
    rewrite loopText_oneLine, parseStep_meta by assumption. reflexivity.
Qed.

(** A metadata line that starts the rest of the text decides the state:
    the pending entry before it is forgotten. *)
Lemma loopText_meta_first m post st1 st2 :
  oneLine m -> isMeta m -> lineEnd post -> snd st1 = snd st2 ->
  loopText (m ++ post) st1 = loopText (m ++ post) st2.
Proof.
  intros Hone Hmeta [-> | [r ->]] E.
  - rewrite app_nil_r, !loopText_oneLine, !parseStep_meta by assumption.
    now rewrite E.
  - rewrite !loopText_app_LF, !(loopText_oneLine m), !parseStep_meta by assumption.
    now rewrite E.
Qed.

Lemma parseM3U_pending_at_end pre m tail :
  lineStart pre -> oneLine m -> isMeta m -> lineEnd tail -> noUrl tail ->
  parseM3U (pre ++ m ++ tail) = parseM3U pre.
Proof.
  intros Hpre Hone Hmeta Hend Hno. rewrite !parseM3U_loopText.
  rewrite loopText_lineStart by exact Hpre.
  now rewrite loopText_meta_tail.
Qed.

Lemma parseM3U_pending_overwritten pre m mid m' post :
  lineStart pre -> oneLine m -> isMeta m -> lineStart mid -> noUrl mid ->
  oneLine m' -> isMeta m' -> lineEnd post ->
  parseM3U (pre ++ m ++ JS.LF :: mid ++ m' ++ post) = parseM3U (pre ++ mid ++ m' ++ post).
Proof.
  intros Hpre Hone Hmeta Hmid Hno Hone' Hmeta' Hpost. rewrite !parseM3U_loopText.
  rewrite !(loopText_lineStart pre) by exact Hpre.
  rewrite loopText_app_LF.
  rewrite !(loopText_lineStart mid) by exact Hmid.
  f_equal. f_equal. apply loopText_meta_first; try assumption.
  rewrite !(loopText_noUrl mid) by exact Hno.
  rewrite loopText_oneLine, parseStep_meta by assumption. reflexivity.
Qed.



Lemma parseM3U_trimmedLines t1 t2 :
  trimmedLines t1 = trimmedLines t2 -> parseM3U t1 = parseM3U t2.
Proof.
  intros H. rewrite !parseM3U_loopText. unfold loopText.
  now rewrite (parseLoop_ext _ _ _ H).
Qed.

End Drop.

(** ** Checking the side conditions on concrete texts *)

Section Checks.

Lemma oneLine_check l : oneLineb l = true -> oneLine l.
Proof.
  unfold oneLineb, oneLine. rewrite forallb_forall. intros H Hin.
  apply list_elem_of_In in Hin. apply H in Hin.
  now rewrite N.eqb_refl in Hin.
Qed.

Lemma blank_check s : blankb s = true -> blank s.
Proof.
  unfold blankb, blank. rewrite forallb_forall, Forall_forall.
  intros H c Hc. apply H. now apply list_elem_of_In.
Qed.

Lemma noUrl_check text : noUrlb text = true -> noUrl text.
Proof.
  unfold noUrlb, noUrl. rewrite forallb_forall, Forall_forall.
  intros H l Hl [Hne Hh]. apply list_elem_of_In in Hl. apply H in Hl.
  rewrite Hh, orb_false_r in Hl.
  destruct (JS.trim l); [now apply Hne | discriminate].
Qed.

Lemma lineStart_nil : lineStart [].
Proof. now left. Qed.

Lemma lineStart_LF p : lineStart (p ++ [JS.LF]).
Proof. right. now exists p. Qed.

Lemma lineEnd_nil : lineEnd [].
Proof. now left. Qed.

Lemma lineEnd_LF r : lineEnd (JS.LF :: r).
Proof. right. now exists r. Qed.

End Checks.

Create HintDb lines.
#[local] Hint Resolve lineStart_nil lineStart_LF lineEnd_nil lineEnd_LF : lines.

(** Settles a side condition on a concrete text by evaluation. *)
Ltac side :=
  first [ solve [auto with lines]
        | apply oneLine_check; reflexivity
        | apply blank_check; reflexivity
        | apply noUrl_check; reflexivity
        | reflexivity ].

(** ** The claims about the parser *)

(** C3. Every entry [parseM3U] returns has a media URL ([direct_source] is a
    non-empty string, never [null]); a metadata line that no URL line follows
    before the end of the text leaves no entry, and neither does one that no
    URL line follows before the next metadata line. *)
Theorem parseM3U_entries_have_url :
  (forall text e, e ∈ parseM3U text ->
     exists u, direct_source e = Some u /\ u <> [])
  /\ (forall pre m tail,
        lineStart pre -> oneLine m -> isMeta m -> lineEnd tail -> noUrl tail ->
        parseM3U (pre ++ m ++ tail) = parseM3U pre)
  /\ (forall pre m mid m' post,
        lineStart pre -> oneLine m -> isMeta m -> lineStart mid -> noUrl mid ->
        oneLine m' -> isMeta m' -> lineEnd post ->
        parseM3U (pre ++ m ++ JS.LF :: mid ++ m' ++ post)
        = parseM3U (pre ++ mid ++ m' ++ post)).
Proof.
  split; [|split].
  - intros text e He.
    destruct (parseM3U_source text e He) as (i & m & u & _ & _ & _ & [Hu _] & ->).
    exists (JS.trim u). split; [reflexivity | exact Hu].
  - apply parseM3U_pending_at_end.
  - apply parseM3U_pending_overwritten.
Qed.

Lemma parseM3U_entries_have_url_witness :
  (exists u, direct_source entryB = Some u /\ u <> [])
  /\ parseM3U ((JS.lit "#EXTM3U" ++ [JS.LF]) ++ metaA ++ (JS.LF :: JS.lit "# the end"))
     = parseM3U (JS.lit "#EXTM3U" ++ [JS.LF])
  /\ parseM3U ([] ++ metaA ++ JS.LF :: (JS.lit "#c" ++ [JS.LF]) ++ metaB
               ++ (JS.LF :: JS.lit "http://x/b"))
     = parseM3U ([] ++ (JS.lit "#c" ++ [JS.LF]) ++ metaB ++ (JS.LF :: JS.lit "http://x/b")).
Proof.
  split; [|split].
  - apply (proj1 parseM3U_entries_have_url sampleTwoMeta entryB).
    vm_compute. constructor.
  - apply (proj1 (proj2 parseM3U_entries_have_url)); side.
  - apply (proj2 (proj2 parseM3U_entries_have_url)); side.
Defined.

(** C4. A metadata line directly followed by another metadata line is
    dropped: the text parses as it does without that line, and when a URL
    line follows the second metadata line the result is the one entry built
    from the second line. On the sample text of the specification the result
    is one entry, named B, with media URL http://x/b. *)
Theorem parseM3U_meta_then_meta :
  (forall pre m m' post,
     lineStart pre -> oneLine m -> isMeta m -> oneLine m' -> isMeta m' ->
     lineEnd post ->
     parseM3U (pre ++ m ++ JS.LF :: m' ++ post) = parseM3U (pre ++ m' ++ post))
  /\ (forall m m' u,
        oneLine m -> isMeta m -> oneLine m' -> isMeta m' -> oneLine u -> isUrl u ->
        parseM3U (m ++ JS.LF :: m' ++ JS.LF :: u)
        = [toChannel 0 (setUrl (newPending (JS.trim m')) (JS.trim u))])
  /\ parseM3U sampleTwoMeta = [entryB]
  /\ (forall e, e ∈ parseM3U sampleTwoMeta ->
        name e = JS.lit "B" /\ direct_source e = Some (JS.lit "http://x/b")).
Proof.
  assert (Hsample : parseM3U sampleTwoMeta = [entryB]) by (vm_compute; reflexivity).
  split; [|split; [|split]].
  - intros pre m m' post Hpre Hone Hmeta Hone' Hmeta' Hpost.
    apply (parseM3U_pending_overwritten pre m [] m' post); try assumption.
    + now left.
    + unfold noUrl. simpl. constructor; [|constructor].
      intros [H _]. now apply H.
  - intros m m' u Hone Hmeta Hone' Hmeta' Honeu [Hne Hh].
    rewrite parseM3U_loopText, !loopText_app_LF.
    rewrite (loopText_oneLine u), (loopText_oneLine m'), (loopText_oneLine m)
      by assumption.
    rewrite (parseStep_meta _ m), (parseStep_meta _ m') by assumption.
    unfold parseStep. cbn [snd].
    rewrite Hh, (not_hash_not_extinf _ Hh).
    destruct (JS.trim u) eqn:E; [now elim Hne | reflexivity].
  - exact Hsample.
  - rewrite Hsample. intros e He. apply list_elem_of_singleton in He. now subst.
Qed.

Lemma parseM3U_meta_then_meta_witness :
  parseM3U ([] ++ metaA ++ JS.LF :: metaB ++ (JS.LF :: JS.lit "http://x/b"))
  = parseM3U ([] ++ metaB ++ (JS.LF :: JS.lit "http://x/b"))
  /\ parseM3U (metaA ++ JS.LF :: metaB ++ JS.LF :: JS.lit "http://x/b")
     = [toChannel 0 (setUrl (newPending (JS.trim metaB)) (JS.trim (JS.lit "http://x/b")))]
  /\ name entryB = JS.lit "B" /\ direct_source entryB = Some (JS.lit "http://x/b").
Proof.
  split; [|split].
  - apply (proj1 parseM3U_meta_then_meta); side.
  - apply (proj1 (proj2 parseM3U_meta_then_meta)); try side.
    split; [vm_compute; discriminate | reflexivity].
  - apply (proj2 (proj2 (proj2 parseM3U_meta_then_meta)) entryB).
    vm_compute. constructor.
Defined.

Section Fields.

Lemma orElse_cases a b :
  (forall v, a = Some v -> v <> [] -> JS.orElse a b = v)
  /\ (missing a -> JS.orElse a b = b).
Proof.
  split.
  - intros v -> Hv. simpl. destruct v; [now elim Hv | reflexivity].
  - intros [-> | ->]; reflexivity.
Qed.



End Fields.



(** ** The two lines of an entry *)

Section Origin.

Implicit Types st : option pending * list pending.

Lemma quiet_step st x : ~ isMeta x -> ~ isUrl x -> parseStep st x = st.
Proof.
  intros Hm Hu. unfold parseStep. destruct st as [cur chans].
  destruct (JS.truthy (JS.trim x)) eqn:Et; cbn [negb]; [|reflexivity].
  destruct (JS.startsWith EXTINF (JS.trim x)) eqn:Em; [now elim Hm|].
  destruct cur as [c|]; [|reflexivity].
  destruct (JS.startsWith HASH (JS.trim x)) eqn:Eh; cbn [negb]; [reflexivity|].
  exfalso. apply Hu. split; [|exact Eh]. intros E. rewrite E in Et. discriminate.
Qed.

Lemma parseLoop_quiet mid st : quiet mid -> parseLoop mid st = st.
Proof.
  induction 1 as [|x mid [Hm Hu] _ IH]; [reflexivity|].
  cbn [parseLoop fold_left]. rewrite quiet_step by assumption. exact IH.
Qed.

(** The loop only adds entries at the end. *)
Lemma parseLoop_extends ls st :
  exists new, snd (parseLoop ls st) = snd st ++ new.
Proof.
  revert st. induction ls as [|x ls IH]; intros st.
  - exists []. now rewrite app_nil_r.
  - cbn [parseLoop fold_left]. destruct (IH (parseStep st x)) as [new E].
    fold (parseLoop ls (parseStep st x)). rewrite E.
    unfold parseStep. destruct st as [cur chans].
    destruct (JS.truthy (JS.trim x)); cbn [negb snd]; [|now exists new].
    destruct (JS.startsWith EXTINF (JS.trim x)); cbn [snd]; [now exists new|].
    destruct cur as [c|]; cbn [snd]; [|now exists new].
    destruct (JS.startsWith HASH (JS.trim x)); cbn [negb snd]; [now exists new|].
    exists (setUrl c (JS.trim x) :: new). now rewrite <- app_assoc.
Qed.

Lemma originOf_snoc L x i c : originOf L i c -> originOf (L ++ [x]) i c.
Proof.
  intros (l1 & m & mid & u & l2 & -> & Hm & Hq & Hu & Hl & ->).
  exists l1, m, mid, u, (l2 ++ [x]).
  split; [|split; [exact Hm | split; [exact Hq | split; [exact Hu | split; [exact Hl | reflexivity]]]]].
  rewrite <- !app_assoc. cbn [app]. now rewrite <- !app_assoc.
Qed.

Lemma pendingOrigin_snoc L x chans c :
  ~ isMeta x -> ~ isUrl x -> pendingOrigin L chans c -> pendingOrigin (L ++ [x]) chans c.
Proof.
  intros Hxm Hxu (l1 & m & mid & -> & Hm & Hq & Hl & ->).
  exists l1, m, (mid ++ [x]).
  split; [|split; [exact Hm | split; [|split; [exact Hl | reflexivity]]]].
  - rewrite <- !app_assoc. reflexivity.
  - apply Forall_app. split; [exact Hq | repeat constructor; assumption].
Qed.

Lemma parseLoop_origin P :
  (forall i c, snd (parseLoop P (None, [])) !! i = Some c -> originOf P i c)
  /\ (forall c, fst (parseLoop P (None, [])) = Some c ->
        pendingOrigin P (snd (parseLoop P (None, []))) c).
Proof.
  induction P as [|x P [IHa IHb]] using rev_ind.
  - split; [intros i c H; inversion H | discriminate].
  - rewrite parseLoop_app. cbn [parseLoop fold_left].
    fold (parseLoop P (None, [])).
    destruct (parseLoop P (None, [])) as [cur chans] eqn:E. cbn [fst snd] in *.
    unfold parseStep.
    destruct (JS.truthy (JS.trim x)) eqn:Et; cbn [negb].
    2: { (* a blank line *)
      assert (Eb : JS.trim x = []).
      { revert Et. destruct (JS.trim x); [reflexivity | discriminate]. }
      assert (Hxm : ~ isMeta x) by (unfold isMeta; rewrite Eb; discriminate).
      assert (Hxu : ~ isUrl x) by (intros [H _]; now apply H).
      cbn [fst snd]. split.
      - intros i c H. apply originOf_snoc, IHa, H.
      - intros c H. apply pendingOrigin_snoc; [assumption.. | now apply IHb]. }
    destruct (JS.startsWith EXTINF (JS.trim x)) eqn:Em.
    { (* a metadata line *)
      cbn [fst snd]. split.
      - intros i c H. apply originOf_snoc, IHa, H.
      - intros c H. inversion H; subst c. exists P, x, [].
        split; [reflexivity | split; [exact Em | split; [constructor|]]].
        split; [now rewrite E | reflexivity]. }
    assert (Hxm : ~ isMeta x) by (unfold isMeta; congruence).
    destruct cur as [c0|].
    + destruct (JS.startsWith HASH (JS.trim x)) eqn:Eh; cbn [negb fst snd].
      * (* a comment *)
        assert (Hxu : ~ isUrl x) by (intros [_ H]; congruence).
        split.
        -- intros i c H. apply originOf_snoc, IHa, H.
        -- intros c H. apply pendingOrigin_snoc; [assumption.. | now apply IHb].
      * (* the URL of the pending entry *)
        split; [|discriminate].
        intros i c H. apply lookup_app_Some in H.
        destruct H as [H | [Hi H]]; [apply originOf_snoc, IHa, H|].
        destruct (IHb c0 eq_refl) as (l1 & m & mid & -> & Hm & Hq & Hl & ->).
        destruct (i - length chans) as [|j] eqn:Ej; [|destruct j; discriminate].
        cbn in H. inversion H; subst c.
        exists l1, m, mid, x, [].
        split; [|split; [exact Hm | split; [exact Hq | split; [|split; [|reflexivity]]]]].
        -- rewrite <- !app_assoc. reflexivity.
        -- split; [|exact Eh]. intros Hb. rewrite Hb in Et. discriminate.
        -- rewrite Hl. lia.
    + cbn [fst snd]. split; [|discriminate].
      intros i c H. apply originOf_snoc, IHa, H.
Qed.

(** Every entry has its two lines in the text, and the two lines of an
    entry give that entry. *)
Lemma parseM3U_origin text i e :
  parseM3U text !! i = Some e ->
  exists m u, linesOfEntry text i m u
              /\ e = toChannel i (setUrl (newPending (JS.trim m)) (JS.trim u)).
Proof.
  unfold parseM3U. cbv zeta. intros H.
  apply list_lookup_imap_Some in H. destruct H as (c & Hc & ->).
  apply (proj1 (parseLoop_origin (JS.splitLines text))) in Hc.
  destruct Hc as (l1 & m & mid & u & l2 & E & Hm & Hq & Hu & Hl & ->).
  exists m, u. split; [|reflexivity].
  exists l1, mid, l2.
  split; [exact E | split; [exact Hm | split; [exact Hq | split; [exact Hu|]]]].
  unfold entriesOfLines. now rewrite length_imap.
Qed.

Lemma parseM3U_of_lines text i m u :
  linesOfEntry text i m u ->
  parseM3U text !! i = Some (toChannel i (setUrl (newPending (JS.trim m)) (JS.trim u))).
Proof.
  intros (l1 & mid & l2 & E & Hm & Hq & [Hne Hh] & Hl).
  unfold entriesOfLines in Hl. rewrite length_imap in Hl.
  unfold parseM3U. cbv zeta. rewrite E.
  apply list_lookup_imap_Some.
  exists (setUrl (newPending (JS.trim m)) (JS.trim u)). split; [|reflexivity].
  rewrite parseLoop_app.
  destruct (parseLoop l1 (None, [])) as [cur chans] eqn:E1. cbn [snd] in Hl.
  cbn [parseLoop fold_left]. fold (parseLoop (mid ++ u :: l2) (parseStep (cur, chans) m)).
  rewrite (parseStep_meta _ m Hm), parseLoop_app, (parseLoop_quiet mid) by exact Hq.
  cbn [parseLoop fold_left snd].
  fold (parseLoop l2 (parseStep (Some (newPending (JS.trim m)), chans) u)).
  assert (Es : parseStep (Some (newPending (JS.trim m)), chans) u
               = (None, chans ++ [setUrl (newPending (JS.trim m)) (JS.trim u)])).
  { unfold parseStep. rewrite Hh, (not_hash_not_extinf _ Hh).
    destruct (JS.trim u); [now elim Hne | reflexivity]. }
  rewrite Es. destruct (parseLoop_extends l2 (None, chans ++ [setUrl (newPending (JS.trim m)) (JS.trim u)]))
    as [new ->]. cbn [snd]. rewrite <- app_assoc. cbn [app].
  rewrite lookup_app_r by lia. replace (i - length chans) with 0 by lia. reflexivity.
Qed.

End Origin.

(** C7. The category of every entry is the group-title attribute of its own
    metadata line, the line that stands before its URL line with only blank
    lines and comments between, when that attribute has a non-empty value,
    and Other when the attribute is absent or empty; and every metadata line
    that a URL line follows in this way gives an entry with that category. *)
Theorem parseM3U_category :
  (forall text i e, parseM3U text !! i = Some e ->
     exists m u, linesOfEntry text i m u
                 /\ direct_source e = Some (JS.trim u)
                 /\ title e = titleOfLine m
                 /\ categoryRule (attrsOfLine m !! JS.lit "group-title") (group_title e))
  /\ (forall text i m u, linesOfEntry text i m u ->
        exists e, parseM3U text !! i = Some e
                  /\ direct_source e = Some (JS.trim u)
                  /\ title e = titleOfLine m
                  /\ categoryRule (attrsOfLine m !! JS.lit "group-title") (group_title e))
  /\ map group_title (parseM3U sampleNamed) = [JS.lit "News"]
  /\ map group_title (parseM3U sampleTitleOnly) = [JS.lit "Other"]
  /\ map group_title (parseM3U sampleEmptyGroup) = [JS.lit "Other"]
  /\ map group_title (parseM3U sampleTwoGroups) = [JS.lit "News"; JS.lit "Other"].
Proof.
  split; [|split].
  - intros text i e He.
    destruct (parseM3U_origin text i e He) as (m & u & Hl & ->).
    exists m, u. split; [exact Hl | split; [reflexivity | split; [reflexivity|]]].
    apply orElse_cases.
  - intros text i m u Hl. eexists. split; [apply (parseM3U_of_lines text i m u Hl)|].
    split; [reflexivity | split; [reflexivity|]]. apply orElse_cases.
  - repeat split; vm_compute; reflexivity.
Qed.

Lemma parseM3U_category_witness :
  (exists m u, linesOfEntry sampleTwoGroups 1 m u
      /\ direct_source (toChannel 1 (setUrl (newPending (JS.lit "#EXTINF:-1,Two"))
                                       (JS.lit "http://x/1")))
         = Some (JS.trim u)
      /\ title (toChannel 1 (setUrl (newPending (JS.lit "#EXTINF:-1,Two"))
                               (JS.lit "http://x/1")))
         = titleOfLine m
      /\ categoryRule (attrsOfLine m !! JS.lit "group-title")
           (group_title (toChannel 1 (setUrl (newPending (JS.lit "#EXTINF:-1,Two"))
                                        (JS.lit "http://x/1")))))
  /\ (exists e, parseM3U sampleTwoGroups !! 1 = Some e
        /\ direct_source e = Some (JS.trim (JS.lit "http://x/1"))
        /\ title e = titleOfLine (JS.lit "#EXTINF:-1,Two")
        /\ categoryRule (attrsOfLine (JS.lit "#EXTINF:-1,Two") !! JS.lit "group-title")
             (group_title e)).
Proof.
  split.
  - apply (proj1 parseM3U_category sampleTwoGroups 1).
    vm_compute. reflexivity.
  - apply (proj1 (proj2 parseM3U_category) sampleTwoGroups 1).
    exists [JS.lit "#EXTINF:-1 group-title=" ++ quoted "News" ++ JS.lit ",One";
            JS.lit "http://x/1"], [], [].
    split; [reflexivity | split; [reflexivity | split; [constructor | split]]].
    + split; [vm_compute; discriminate | reflexivity].
    + vm_compute. reflexivity.
Defined.



(** ** The claims about the cache *)

(** C1, as stated, fails for the empty text. The first call, on the initial
    cache, fetches an empty body and stores it; the second call comes one
    millisecond later, well within the TTL, and still asks the upstream and
    returns what it sends instead of the stored text. *)
Lemma fetchM3U_refetches_empty_text :
  afterEmptyFetch = (Ok [], replaced 1000 [], asked emptyThenPlaylist)
  /\ m3uText (replaced 1000 []) = Some []
  /\ (1001 - fetchedAt (replaced 1000 []) < 300000)%Z
  /\ fetchM3U 300000 1001 (replaced 1000 []) (asked emptyThenPlaylist)
     = (Ok (JS.lit "#EXTM3U"), replaced 1001 (JS.lit "#EXTM3U"),
        asked (asked emptyThenPlaylist))
  /\ requests (snd (fetchM3U 300000 1001 (replaced 1000 []) (asked emptyThenPlaylist)))
     <> requests (asked emptyThenPlaylist)
  /\ fetchM3U 300000 1001 (replaced 1000 []) (asked emptyThenPlaylist)
     <> (Ok [], replaced 1000 [], asked emptyThenPlaylist).
Proof.
  split; [reflexivity | split; [reflexivity | split; [reflexivity | split; [reflexivity|]]]].
  split; intros H; vm_compute in H; discriminate.
Qed.

Section FetchCache.

(** The configured time to live, in milliseconds. *)
Variable CACHE_TTL_MS : Z.

Implicit Types (now : Z) (c : cache) (w : upstream).

Lemma fetchM3U_stale now c w :
  stale CACHE_TTL_MS now c -> fetchM3U CACHE_TTL_MS now c w = refresh now c w.
Proof.
  unfold fetchM3U, stale. intros Hs.
  destruct (m3uText c) as [text|] eqn:E; [|reflexivity].
  destruct Hs as [H | [H | H]]; [discriminate | |].
  - inversion H; subst. reflexivity.
  - apply Z.ltb_ge in H. rewrite H, andb_false_r. reflexivity.
Qed.

Lemma refresh_failure now c w :
  failure (answer w (requests w)) -> exists e, refresh now c w = (Throw e, c, asked w).
Proof.
  intros Hf. unfold refresh, request. fold (asked w).
  destruct (answer w (requests w)) as [e | statusCode bodyText]; [now exists e|].
  destruct (Z.geb_spec statusCode 400) as [Hge | Hlt]; [now eexists|].
  destruct Hf as [Hf | [e ->]]; [lia | now exists e].
Qed.

Lemma refresh_all_or_nothing now c w :
  let '(r, c', _) := refresh now c w in
  c' = c \/ exists text, r = Ok text /\ c' = replaced now text.
Proof.
  unfold refresh, request.
  destruct (answer w (requests w)) as [e | statusCode bodyText]; [now left|].
  destruct (statusCode >=? 400)%Z; [now left|].
  destruct bodyText as [text | e]; [right; now exists text | now left].
Qed.

(** C1, amended. While a non-empty text is cached and less than the TTL has
    passed since it was fetched, [fetchM3U] returns that text, leaves the
    cache as it is and makes no request. *)
Theorem fetchM3U_fresh now c w (text : list N) :
  m3uText c = Some text -> text <> [] ->
  (now - fetchedAt c < CACHE_TTL_MS)%Z ->
  fetchM3U CACHE_TTL_MS now c w = (Ok text, c, w)
  /\ requests (snd (fetchM3U CACHE_TTL_MS now c w)) = requests w.
Proof.
  intros Ht Hne Hlt. unfold fetchM3U. rewrite Ht.
  destruct text as [|x text]; [now elim Hne|]. cbn [JS.truthy andb].
  apply Z.ltb_lt in Hlt. rewrite Hlt. split; reflexivity.
Qed.

(** C2. A call that goes to the upstream and meets a failure throws and
    leaves the three fields of the cache as they were; and whatever the
    upstream does, a call either leaves the cache as it was or replaces the
    text, its parse and the time together. *)
Theorem fetchM3U_failure_keeps_cache :
  (forall now c w,
     stale CACHE_TTL_MS now c -> failure (answer w (requests w)) ->
     exists e, fetchM3U CACHE_TTL_MS now c w = (Throw e, c, asked w))
  /\ (forall now c w statusCode bodyText,
        stale CACHE_TTL_MS now c ->
        answer w (requests w) = Replied statusCode bodyText ->
        (400 <= statusCode)%Z ->
        fetchM3U CACHE_TTL_MS now c w = (Throw (fetchFailed statusCode), c, asked w))
  /\ (forall now c w,
        let '(r, c', _) := fetchM3U CACHE_TTL_MS now c w in
        c' = c
        \/ exists text, r = Ok text /\ c' = replaced now text).
Proof.
  split; [|split].
  - intros now c w Hs Hf. rewrite fetchM3U_stale by exact Hs.
    now apply refresh_failure.
  - intros now c w statusCode bodyText Hs Ha Hge. rewrite fetchM3U_stale by exact Hs.
    unfold refresh, request. fold (asked w). rewrite Ha.
    destruct (Z.geb_spec statusCode 400); [reflexivity | lia].
  - intros now c w. unfold fetchM3U.
    destruct (m3uText c) as [text|];
      [destruct (JS.truthy text && (now - fetchedAt c <? CACHE_TTL_MS)%Z); [now left|]|].
    all: apply refresh_all_or_nothing.
Qed.

End FetchCache.

Lemma fetchM3U_fresh_witness :
  fetchM3U 300000 299999 (filled (JS.lit "#EXTM3U")) (failing 503)
  = (Ok (JS.lit "#EXTM3U"), filled (JS.lit "#EXTM3U"), failing 503)
  /\ requests (snd (fetchM3U 300000 299999 (filled (JS.lit "#EXTM3U")) (failing 503)))
     = requests (failing 503).
Proof.
  apply (fetchM3U_fresh 300000 299999 (filled (JS.lit "#EXTM3U")) (failing 503)
           (JS.lit "#EXTM3U")).
  - reflexivity.
  - vm_compute. discriminate.
  - reflexivity.
Defined.

Lemma fetchM3U_failure_keeps_cache_witness :
  (exists e, fetchM3U 300000 300000 (filled (JS.lit "#EXTM3U")) (failing 503)
             = (Throw e, filled (JS.lit "#EXTM3U"), asked (failing 503)))
  /\ fetchM3U 300000 300000 (filled (JS.lit "#EXTM3U")) (failing 404)
     = (Throw (fetchFailed 404), filled (JS.lit "#EXTM3U"), asked (failing 404)).
Proof.
  split.
  - apply (proj1 (fetchM3U_failure_keeps_cache 300000)).
    + right; right. vm_compute. discriminate.
    + left. vm_compute. discriminate.
  - apply (proj1 (proj2 (fetchM3U_failure_keeps_cache 300000)) _ _ _ 404%Z (Ok [])).
    + right; right. vm_compute. discriminate.
    + reflexivity.
    + vm_compute. discriminate.
Defined.

(** ** The claims about the access gate *)

Section Gate.

Lemma size_zero_empty (m : gmap (list N) (list N)) :
  Nat.eqb (size m) 0 = true <-> m = ∅.
Proof. rewrite Nat.eqb_eq. apply map_size_empty_iff. Qed.

Lemma okUserPass_open u pass : okUserPass ∅ u pass = true.
Proof. reflexivity. Qed.

Lemma okUserPass_closed (m : gmap (list N) (list N)) u pass :
  m <> ∅ -> (okUserPass m u pass = true <-> m !! u = Some (passOrEmpty pass)).
Proof.
  intros Hne. unfold okUserPass.
  destruct (Nat.eqb (size m) 0) eqn:E.
  - apply size_zero_empty in E. contradiction.
  - destruct (m !! u) as [allowedPass|].
    + rewrite eqb_eq. split; [now intros -> | now intros [= ->]].
    + split; discriminate.
Qed.

Lemma passOrEmpty_string p : passOrEmpty (VString p) = p.
Proof. now destruct p. Qed.

End Gate.

(** C6. With an empty mapping every pair is authorized. With a non-empty one
    a pair is authorized exactly when the mapping holds the user name with
    that very password, the empty password included. With the mapping of
    alice to secret, alice with secret is authorized, alice with a wrong
    password and bob with the empty one are not. *)
Theorem okUserPass_policy :
  (forall u p, okUserPass ∅ u (VString p) = true)
  /\ (forall (m : gmap (list N) (list N)) u p, m <> ∅ ->
        (okUserPass m u (VString p) = true <-> m !! u = Some p))
  /\ (forall (m : gmap (list N) (list N)) u, m !! u = Some [] ->
        okUserPass m u (VString []) = true)
  /\ parseAllowUsers (Some (JS.lit "alice:secret")) = onlyAlice
  /\ okUserPass onlyAlice alice (VString secret) = true
  /\ okUserPass onlyAlice alice (VString (JS.lit "wrong")) = false
  /\ okUserPass onlyAlice bob (VString []) = false.
Proof.
  split; [|split; [|split]].
  - intros u p. apply okUserPass_open.
  - intros m u p Hne. rewrite okUserPass_closed by exact Hne.
    now rewrite passOrEmpty_string.
  - intros m u Hu. apply okUserPass_closed.
    + intros ->. rewrite lookup_empty in Hu. discriminate.
    + exact Hu.
  - repeat split; vm_compute; reflexivity.
Qed.

Lemma okUserPass_policy_witness :
  (okUserPass onlyAlice alice (VString secret) = true <-> onlyAlice !! alice = Some secret)
  /\ okUserPass (parseAllowUsers (Some (JS.lit "bob:"))) bob (VString []) = true.
Proof.
  split.
  - apply (proj1 (proj2 okUserPass_policy)).
    intros H. apply (f_equal size) in H. vm_compute in H. discriminate.
  - apply (proj1 (proj2 (proj2 okUserPass_policy))). vm_compute. reflexivity.
Defined.

(** C9. A missing password ([undefined] or [null]) is treated as the empty
    one; a request without the password parameter is authorized exactly when
    the allow-list is empty or holds the user name with the empty password. *)
Theorem okUserPass_missing_password :
  (forall m u, okUserPass m u VUndefined = okUserPass m u (VString [])
               /\ okUserPass m u VNull = okUserPass m u (VString []))
  /\ (forall (m : gmap (list N) (list N)) u,
        okUserPass m u VUndefined = true <-> m = ∅ \/ m !! u = Some [])
  /\ (forall (m : gmap (list N) (list N)) u,
        requestAllowed m (Some u) None = true <-> m = ∅ \/ m !! u = Some [])
  /\ requestAllowed (parseAllowUsers (Some (JS.lit "alice:secret,bob"))) (Some bob) None = true
  /\ requestAllowed (parseAllowUsers (Some (JS.lit "alice:secret,bob:"))) (Some bob) None = true
  /\ requestAllowed (parseAllowUsers (Some (JS.lit "alice:secret,bob"))) (Some alice) None = false
  /\ requestAllowed (parseAllowUsers None) (Some alice) None = true.
Proof.
  assert (H : forall (m : gmap (list N) (list N)) u pass, passOrEmpty pass = [] ->
                (okUserPass m u pass = true <-> m = ∅ \/ m !! u = Some [])).
  { intros m u pass Hp. destruct (decide (m = ∅)) as [-> | Hne].
    - split; [now left | intros _; reflexivity].
    - rewrite okUserPass_closed, Hp by exact Hne. split; [now right|].
      intros [? | ?]; [contradiction | assumption]. }
  split; [|split; [|split]].
  - intros m u. split; reflexivity.
  - intros m u. now apply H.
  - intros m u. unfold requestAllowed. now apply H.
  - repeat split; vm_compute; reflexivity.
Qed.

(** ** The claim about the playlist body *)

(** C8. The body sent by [/get.php] with the substituted playlist starts
    with the header marker: it is the substituted text when that text starts
    with the marker, and the marker, a line feed and the substituted text
    otherwise. Every body the handler sends starts with the marker. *)
Theorem playlistBody_header :
  (forall m3u username password,
     exists rest, playlistBody m3u username password = EXTM3U ++ rest)
  /\ (forall m3u username password,
        (exists rest, personalize m3u username password = EXTM3U ++ rest) ->
        playlistBody m3u username password = personalize m3u username password)
  /\ (forall m3u username password,
        ~ (exists rest, personalize m3u username password = EXTM3U ++ rest) ->
        playlistBody m3u username password
        = EXTM3U ++ [JS.LF] ++ personalize m3u username password)
  /\ (forall ALLOW_USERS CACHE_TTL_MS now username password type c w,
        exists rest,
          body (fst (fst (getPhp ALLOW_USERS CACHE_TTL_MS now username password type c w)))
          = EXTM3U ++ rest)
  /\ playlistBody (JS.lit "http://h/{{username}}/{{password}}") alice secret
     = JS.lit "#EXTM3U" ++ [JS.LF] ++ JS.lit "http://h/alice/secret".
Proof.
  assert (Hb : forall m3u username password,
             exists rest, playlistBody m3u username password = EXTM3U ++ rest).
  { intros m3u username password. unfold playlistBody, forceHeader.
    destruct (JS.startsWith EXTM3U _) eqn:E; cbn [negb].
    - now apply startsWith_iff.
    - now eexists. }
  split; [exact Hb | split; [|split; [|split]]].
  - intros m3u username password H. apply startsWith_iff in H.
    unfold playlistBody, forceHeader. now rewrite H.
  - intros m3u username password H. unfold playlistBody, forceHeader.
    destruct (JS.startsWith EXTM3U _) eqn:E; [|reflexivity].
    apply startsWith_iff in E. contradiction.
  - intros ALLOW_USERS ttl now username password type c w. unfold getPhp.
    destruct (requestAllowed _ _ _); cbn [negb]; [|now eexists].
    destruct (fetchM3U ttl now c w) as [[r c'] w'].
    destruct r as [m3u | e]; cbn [fst body]; [apply Hb | now eexists].
  - vm_compute. reflexivity.
Qed.

Lemma playlistBody_header_witness :
  playlistBody (JS.lit "#EXTM3U {{username}}") alice secret
  = personalize (JS.lit "#EXTM3U {{username}}") alice secret
  /\ playlistBody (JS.lit "{{username}}") alice secret
     = EXTM3U ++ [JS.LF] ++ personalize (JS.lit "{{username}}") alice secret.
Proof.
  split.
  - apply (proj1 (proj2 playlistBody_header)).
    exists (JS.lit " alice"). reflexivity.
  - apply (proj1 (proj2 (proj2 playlistBody_header))).
    intros [rest H]. vm_compute in H. discriminate.
Defined.

(** ** Further properties of the parser *)

Section ParserMore.

Implicit Types st : option pending * list pending.

Lemma parseStep_comment st raw : isComment raw -> parseStep st raw = st.
Proof.
  intros [Hh Hm]. unfold parseStep. destruct st as [cur chans].
  rewrite Hm, Hh. destruct (JS.truthy (JS.trim raw)); cbn [negb]; [|reflexivity].
  now destruct cur.
Qed.

Lemma parseLoop_noMeta ls chans :
  Forall (fun l => ~ isMeta l) ls -> parseLoop ls (None, chans) = (None, chans).
Proof.
  induction 1 as [|l ls Hl _ IH]; [reflexivity|].
  cbn [parseLoop fold_left]. fold (parseLoop ls (parseStep (None, chans) l)).
  replace (parseStep (None, chans) l) with (@None pending, chans); [exact IH|].
  unfold parseStep. destruct (JS.truthy (JS.trim l)); cbn [negb]; [|reflexivity].
  destruct (JS.startsWith EXTINF (JS.trim l)) eqn:E; [now elim Hl | reflexivity].
Qed.

Lemma noMeta_check text : noMetab text = true -> noMeta text.
Proof.
  unfold noMetab, noMeta. rewrite forallb_forall, Forall_forall.
  intros H l Hl Hm. apply list_elem_of_In in Hl. apply H in Hl.
  unfold isMeta in Hm. rewrite Hm in Hl. discriminate.
Qed.

Lemma parseStep_item st m u :
  fst st = None -> isMeta m -> isUrl u ->
  parseStep (parseStep st m) u
  = (None, snd st ++ [setUrl (newPending (JS.trim m)) (JS.trim u)]).
Proof.
  intros Hst Hm [Hne Hh]. rewrite (parseStep_meta st m Hm).
  unfold parseStep. cbn [snd].
  rewrite Hh, (not_hash_not_extinf _ Hh).
  destruct (JS.trim u); [now elim Hne | reflexivity].
Qed.

Lemma loopText_playlistOf items chans :
  Forall wellFormedItem items ->
  loopText (playlistOf items) (None, chans)
  = (None, chans ++ map (fun it => setUrl (newPending (JS.trim (fst it))) (JS.trim (snd it))) items).
Proof.
  intros H. revert chans. induction H as [|[m u] items (Hm1 & Hm2 & Hu1 & Hu2) _ IH];
    intros chans.
  - cbn [playlistOf map concat]. rewrite loopText_nil, app_nil_r. reflexivity.
  - cbn [playlistOf map concat]. unfold itemText at 1. cbn [fst snd] in *.
    rewrite <- !app_assoc. cbn [app].
    rewrite loopText_app_LF, loopText_app_LF.
    rewrite (loopText_oneLine u), (loopText_oneLine m) by assumption.
    rewrite parseStep_item by (assumption || reflexivity).
    cbn [snd]. fold (playlistOf items). rewrite IH, <- app_assoc. reflexivity.
Qed.

Lemma imap_toChannel_map {A} (f : A -> pending) (l : list A) :
  imap toChannel (map f l) = imap (fun i a => toChannel i (f a)) l.
Proof. apply (imap_fmap toChannel f l). Qed.

(** The loop never holds more entries, pending one included, than it has
    seen metadata lines, and never more entries than URL lines. *)
Lemma parseLoop_counts ls st :
  length (snd (parseLoop ls st)) + held (fst (parseLoop ls st))
  <= length (snd st) + held (fst st)
     + length (List.filter (fun l => JS.startsWith EXTINF (JS.trim l)) ls)
  /\ length (snd (parseLoop ls st))
     <= length (snd st)
        + length (List.filter
                    (fun l => JS.truthy (JS.trim l) && negb (JS.startsWith HASH (JS.trim l)))
                    ls).
Proof.
  revert st. induction ls as [|l ls IH]; intros st.
  - cbn. lia.
  - cbn [parseLoop fold_left List.filter].
    fold (parseLoop ls (parseStep st l)).
    destruct (IH (parseStep st l)) as [IH1 IH2].
    assert (Hs :
      length (snd (parseStep st l)) + held (fst (parseStep st l))
      <= length (snd st) + held (fst st)
         + (if JS.startsWith EXTINF (JS.trim l) then 1 else 0)
      /\ length (snd (parseStep st l))
         <= length (snd st)
            + (if JS.truthy (JS.trim l) && negb (JS.startsWith HASH (JS.trim l))
               then 1 else 0)).
    { unfold parseStep, held. destruct st as [cur chans].
      destruct (JS.truthy (JS.trim l)); cbn [negb andb fst snd].
      - destruct (JS.startsWith EXTINF (JS.trim l)); cbn [fst snd].
        + destruct cur; lia.
        + destruct cur as [c|]; cbn [fst snd]; [|lia].
          destruct (JS.startsWith HASH (JS.trim l)); cbn [negb fst snd];
            rewrite ?length_app; cbn [length]; lia.
      - destruct (JS.startsWith EXTINF (JS.trim l)); destruct cur; lia. }
    destruct Hs as [Hs1 Hs2].
    destruct (JS.startsWith EXTINF (JS.trim l));
      destruct (JS.truthy (JS.trim l) && negb (JS.startsWith HASH (JS.trim l)));
      cbn [length]; lia.
Qed.

Lemma orElse_nonempty a b : b <> [] -> JS.orElse a b <> [].
Proof.
  intros Hb. destruct a as [[|x s]|]; cbn; [exact Hb | discriminate | exact Hb].
Qed.

Lemma orNull_nonempty a : JS.orNull a <> Some [].
Proof. destruct a as [[|x s]|]; cbn; discriminate. Qed.

End ParserMore.

(** X1. The entries are numbered from 1 in the order of the result, and the
    [id] of an entry is its [stream_id] in decimal. *)
Theorem parseM3U_numbering :
  (forall text, map stream_id (parseM3U text) = seq 1 (length (parseM3U text)))
  /\ (forall text e, e ∈ parseM3U text -> id e = JS.ofNat (stream_id e))
  /\ (forall text i e, parseM3U text !! i = Some e -> stream_id e = i + 1).
Proof.
  assert (H : forall text i e, parseM3U text !! i = Some e ->
                stream_id e = i + 1 /\ id e = JS.ofNat (i + 1)).
  { intros text i e He. unfold parseM3U in He. cbv zeta in He.
    apply list_lookup_imap_Some in He. destruct He as (c & _ & ->). now split. }
  split; [|split].
  - intros text. apply list_eq. intros i.
    rewrite list_lookup_fmap.
    destruct (parseM3U text !! i) as [e|] eqn:E; cbn.
    + destruct (H text i e E) as [-> _].
      symmetry. apply lookup_seq. split; [lia|].
      now apply lookup_lt_Some in E.
    + symmetry. apply lookup_seq_ge. now apply lookup_ge_None in E.
  - intros text e He. apply list_elem_of_lookup in He. destruct He as [i Hi].
    destruct (H text i e Hi) as [-> ->]. reflexivity.
  - intros text i e He. exact (proj1 (H text i e He)).
Qed.

Lemma parseM3U_numbering_witness :
  id entryB = JS.ofNat (stream_id entryB).
Proof.
  apply (proj1 (proj2 parseM3U_numbering) sampleTwoMeta entryB).
  vm_compute. constructor.
Defined.

(** X2. No entry has an empty name, an empty category or an empty media
    URL, and [tvg_id] and [tvg_logo] are [null] rather than empty. *)
Theorem parseM3U_no_empty_field text e :
  e ∈ parseM3U text ->
  name e <> [] /\ group_title e <> [] /\ direct_source e <> Some []
  /\ direct_source e <> None /\ tvg_id e <> Some [] /\ tvg_logo e <> Some [].
Proof.
  intros He.
  destruct (parseM3U_source text e He) as (i & m & u & _ & _ & _ & [Hu _] & ->).
  cbn [toChannel setUrl newPending name group_title direct_source tvg_id tvg_logo
       p_name p_attrs p_url].
  repeat split.
  - unfold nameOf. apply orElse_nonempty, orElse_nonempty, orElse_nonempty.
    vm_compute. discriminate.
  - apply orElse_nonempty. vm_compute. discriminate.
  - intros H. inversion H. contradiction.
  - discriminate.
  - apply orNull_nonempty.
  - apply orNull_nonempty.
Qed.

Lemma parseM3U_no_empty_field_witness :
  name entryB <> [] /\ group_title entryB <> [] /\ direct_source entryB <> Some []
  /\ direct_source entryB <> None /\ tvg_id entryB <> Some [] /\ tvg_logo entryB <> Some [].
Proof.
  apply (parseM3U_no_empty_field sampleTwoMeta entryB).
  vm_compute. constructor.
Defined.

(** X3. The result has at most as many entries as the text has metadata
    lines, and at most as many as it has lines that are neither blank nor
    comments. *)
Theorem parseM3U_length_bound text :
  length (parseM3U text) <= metaCount text
  /\ length (parseM3U text) <= urlCount text.
Proof.
  unfold parseM3U, metaCount, urlCount. cbv zeta. rewrite length_imap.
  destruct (parseLoop_counts (JS.splitLines text) (None, [])) as [H1 H2].
  cbn [fst snd length held] in *. lia.
Qed.

(** X4. A playlist written item by item, each item a metadata line and a
    URL line, parses to one entry per item, in order; a header line in front
    changes nothing. *)
Theorem parseM3U_playlistOf items :
  Forall wellFormedItem items ->
  parseM3U (playlistOf items) = imap entryOf items
  /\ parseM3U (EXTM3U ++ [JS.LF] ++ playlistOf items) = imap entryOf items
  /\ length (parseM3U (playlistOf items)) = length items.
Proof.
  intros H.
  assert (E : parseM3U (playlistOf items) = imap entryOf items).
  { rewrite parseM3U_loopText, (loopText_playlistOf items [] H).
    cbn [snd app]. apply imap_toChannel_map. }
  split; [exact E | split].
  - rewrite <- E, !parseM3U_loopText. cbn [app].
    rewrite loopText_app_LF. reflexivity.
  - rewrite E. apply length_imap.
Qed.

Lemma parseM3U_playlistOf_witness :
  parseM3U (playlistOf [itemA; itemB]) = imap entryOf [itemA; itemB]
  /\ parseM3U (EXTM3U ++ [JS.LF] ++ playlistOf [itemA; itemB]) = imap entryOf [itemA; itemB]
  /\ length (parseM3U (playlistOf [itemA; itemB])) = length [itemA; itemB].
Proof.
  apply (parseM3U_playlistOf [itemA; itemB]).
  repeat constructor; try (apply oneLine_check; reflexivity); try reflexivity;
    vm_compute; discriminate.
Defined.

(** X5. Lines before the first metadata line are ignored, URL lines
    included, and a text without a metadata line has no entries. *)
Theorem parseM3U_before_first_meta :
  (forall text, noMeta text -> parseM3U text = [])
  /\ (forall pre text, lineStart pre -> noMeta pre ->
        parseM3U (pre ++ text) = parseM3U text).
Proof.
  split.
  - intros text H. rewrite parseM3U_loopText. unfold loopText.
    now rewrite parseLoop_noMeta.
  - intros pre text Hpre H. rewrite !parseM3U_loopText.
    rewrite loopText_lineStart by exact Hpre.
    unfold loopText at 2. now rewrite parseLoop_noMeta.
Qed.

Lemma parseM3U_before_first_meta_witness :
  parseM3U (JS.lit "http://x/1" ++ [JS.LF] ++ JS.lit "#EXTM3U") = []
  /\ parseM3U ((JS.lit "http://x/1" ++ [JS.LF]) ++ sampleTwoMeta) = parseM3U sampleTwoMeta.
Proof.
  split.
  - apply (proj1 parseM3U_before_first_meta). apply noMeta_check. reflexivity.
  - apply (proj2 parseM3U_before_first_meta); [side|].
    apply noMeta_check. reflexivity.
Defined.

(** X6. A comment line changes nothing wherever it stands, between a
    metadata line and its URL line included. *)
Theorem parseM3U_comment_line pre cm post :
  lineStart pre -> oneLine cm -> isComment cm ->
  parseM3U (pre ++ cm ++ JS.LF :: post) = parseM3U (pre ++ post).
Proof.
  intros Hpre Hone Hcm. rewrite !parseM3U_loopText.
  rewrite !(loopText_lineStart pre) by exact Hpre.
  rewrite loopText_app_LF, (loopText_oneLine cm) by exact Hone.
  now rewrite parseStep_comment.
Qed.

Lemma parseM3U_comment_line_witness :
  parseM3U ((metaB ++ [JS.LF]) ++ JS.lit "#EXTVLCOPT:x" ++ JS.LF :: JS.lit "http://x/b")
  = parseM3U ((metaB ++ [JS.LF]) ++ JS.lit "http://x/b").
Proof.
  apply parseM3U_comment_line; [side | side |].
  split; reflexivity.
Defined.

(** ** Properties of [parseAttributes] *)

Section Attributes.

Lemma attrLoop_step s attrs :
  attrLoop s attrs =
  match reExec s with
  | Some (k, v, rest) => attrLoop rest (setProp k v attrs)
  | None => attrs
  end.
Proof.
  funelim (attrLoop s attrs).
  - match goal with E : reExec _ = Some _ |- _ => rewrite E end. reflexivity.
  - match goal with E : reExec _ = None |- _ => rewrite E end. reflexivity.
Qed.

Lemma span_spec p s a b :
  span p s = (a, b) ->
  s = a ++ b /\ Forall (fun x => p x = true) a
  /\ (forall x b', b = x :: b' -> p x = false).
Proof.
  revert a b. induction s as [|c s IH]; intros a b; cbn [span].
  - intros H; inversion H; subst. repeat split; [constructor | discriminate].
  - destruct (p c) eqn:Hc.
    + destruct (span p s) as [a' b'] eqn:E. intros H; inversion H; subst.
      destruct (IH a' b eq_refl) as (-> & Ha & Hb).
      repeat split; [now constructor | exact Hb].
    + intros H; inversion H; subst. repeat split; [constructor|].
      intros x b' Hx. inversion Hx; subst. exact Hc.
Qed.

Lemma span_app_stop p a b :
  Forall (fun x => p x = true) a -> (forall x b', b = x :: b' -> p x = false) ->
  span p (a ++ b) = (a, b).
Proof.
  intros Ha Hb. induction Ha as [|c a Hc _ IH]; cbn [app span].
  - destruct b as [|x b']; [reflexivity|]. cbn [span].
    now rewrite (Hb x b' eq_refl).
  - now rewrite Hc, IH.
Qed.

Lemma matchAttr_spec s k v rest :
  matchAttr s = Some (k, v, rest) ->
  validKey k /\ (JS.DQUOTE ∉ v)
  /\ s = k ++ [JS.EQUALS; JS.DQUOTE] ++ v ++ [JS.DQUOTE] ++ rest.
Proof.
  unfold matchAttr. destruct s as [|c s1]; [discriminate|].
  destruct (JS.isWord c) eqn:Hc; [|discriminate].
  destruct (span _ s1) as [run s2] eqn:E1.
  destruct s2 as [|x [|y s3]]; try discriminate.
  destruct (x =? JS.EQUALS)%N eqn:Hx; cbn [andb]; [|discriminate].
  destruct (y =? JS.DQUOTE)%N eqn:Hy; [|discriminate].
  destruct (span _ s3) as [val s4] eqn:E2.
  destruct s4 as [|d rest']; [discriminate|].
  intros H; inversion H; subst.
  apply N.eqb_eq in Hx, Hy. subst.
  apply span_spec in E1, E2.
  destruct E1 as (-> & Hrun & _). destruct E2 as (-> & Hval & Hd).
  specialize (Hd d rest eq_refl). apply negb_false_iff, N.eqb_eq in Hd. subst d.
  split; [|split].
  - exists c, run. auto.
  - intros Hin. rewrite Forall_forall in Hval. apply Hval in Hin.
    now rewrite N.eqb_refl in Hin.
  - reflexivity.
Qed.

Lemma reExec_spec s k v rest :
  reExec s = Some (k, v, rest) ->
  validKey k /\ (JS.DQUOTE ∉ v)
  /\ exists a, s = a ++ k ++ [JS.EQUALS; JS.DQUOTE] ++ v ++ [JS.DQUOTE] ++ rest.
Proof.
  induction s as [|c s IH]; cbn [reExec].
  - cbn. discriminate.
  - destruct (matchAttr (c :: s)) as [[[k' v'] r']|] eqn:E.
    + intros H; inversion H; subst. apply matchAttr_spec in E.
      destruct E as (Hk & Hv & E). split; [exact Hk | split; [exact Hv|]].
      now exists [].
    + intros H. destruct (IH H) as (Hk & Hv & a & ->).
      split; [exact Hk | split; [exact Hv|]]. now exists (c :: a).
Qed.

Lemma matchAttr_attr k v rest :
  validKey k -> JS.DQUOTE ∉ v ->
  matchAttr (k ++ [JS.EQUALS; JS.DQUOTE] ++ v ++ [JS.DQUOTE] ++ rest) = Some (k, v, rest).
Proof.
  intros (c & r & -> & Hc & Hr) Hv. unfold matchAttr. cbn [app]. rewrite Hc.
  rewrite (span_app_stop _ r).
  - cbn [andb]. rewrite !N.eqb_refl. cbn [andb].
    rewrite (span_app_stop _ v).
    + reflexivity.
    + apply Forall_forall. intros x Hx. apply negb_true_iff, N.eqb_neq.
      intros ->. contradiction.
    + intros x b' H. inversion H. reflexivity.
  - exact Hr.
  - intros x b' H. inversion H. reflexivity.
Qed.

(** No match of the regular expression in a text without an equals sign,
    nor in one without a double quote. *)
Lemma matchAttr_needs s : JS.EQUALS ∉ s \/ JS.DQUOTE ∉ s -> matchAttr s = None.
Proof.
  intros H. destruct (matchAttr s) as [[[k v] rest]|] eqn:E; [|reflexivity].
  apply matchAttr_spec in E. destruct E as (_ & _ & ->).
  exfalso. destruct H as [H | H]; apply H; rewrite !elem_of_app.
  - right. left. constructor.
  - right. left. constructor. constructor.
Qed.

Lemma reExec_needs s : JS.EQUALS ∉ s \/ JS.DQUOTE ∉ s -> reExec s = None.
Proof.
  induction s as [|c s IH]; intros H; cbn [reExec].
  - reflexivity.
  - rewrite matchAttr_needs by exact H. apply IH.
    destruct H as [H | H]; [left | right]; intros Hin; apply H; now constructor.
Qed.

Lemma span_first_fail p d t a e b :
  span p (d ++ t) = (a, e :: b) -> (exists y, y ∈ d /\ p y = false) -> e ∈ d.
Proof.
  revert a. induction d as [|y d IH]; intros a Hs (z & Hz & Hpz).
  - inversion Hz.
  - cbn [app span] in Hs. destruct (p y) eqn:Hy.
    + destruct (span p (d ++ t)) as [a' b'] eqn:E. inversion Hs; subst.
      constructor. apply (IH a' eq_refl). exists z. split; [|exact Hpz].
      apply elem_of_cons in Hz. destruct Hz as [-> | Hz]; [congruence | exact Hz].
    + inversion Hs; subst. constructor.
Qed.

(** No match starts in a text without an equals sign that a space ends. *)
Lemma reExec_skip d t :
  JS.EQUALS ∉ d -> reExec (d ++ 32%N :: t) = reExec t.
Proof.
  induction d as [|x d IH]; intros Hd.
  - reflexivity.
  - cbn [app reExec].
    assert (Hm : matchAttr (x :: d ++ 32%N :: t) = None).
    { unfold matchAttr. destruct (JS.isWord x); [|reflexivity].
      destruct (span _ (d ++ 32%N :: t)) as [run s2] eqn:E.
      destruct s2 as [|e [|y s3]]; try reflexivity.
      change (d ++ 32%N :: t) with (d ++ [32%N] ++ t) in E.
      rewrite app_assoc in E. apply span_first_fail in E.
      - destruct (e =? JS.EQUALS)%N eqn:He; [|reflexivity].
        apply N.eqb_eq in He. subst e. exfalso.
        apply elem_of_app in E. destruct E as [E | E].
        + apply Hd. now constructor.
        + apply list_elem_of_singleton in E. discriminate.
      - exists 32%N. split; [|reflexivity]. apply elem_of_app. right. constructor. }
    rewrite Hm. apply IH. intros Hin. apply Hd. now constructor.
Qed.

Lemma setProp_insert (k v : list N) (m : gmap (list N) (list N)) :
  k <> JS.lit "__proto__" -> setProp k v m = <[k := v]> m.
Proof.
  intros H. unfold setProp. destruct (JS.eqb k (JS.lit "__proto__")) eqn:E; [|reflexivity].
  apply eqb_eq in E. contradiction.
Qed.

Lemma reExec_attr k v rest :
  validKey k -> JS.DQUOTE ∉ v ->
  reExec (k ++ [JS.EQUALS; JS.DQUOTE] ++ v ++ [JS.DQUOTE] ++ rest) = Some (k, v, rest).
Proof.
  intros Hk Hv. pose proof (matchAttr_attr k v rest Hk Hv) as E.
  destruct Hk as (c & r & -> & _). cbn [app reExec] in *. now rewrite E.
Qed.

Lemma attrLoop_attrsText d kvs m :
  JS.EQUALS ∉ d -> Forall validAttr kvs ->
  attrLoop (d ++ attrsText kvs) m = putAll kvs m.
Proof.
  intros Hd H. revert d m Hd. induction H as [|[k v] kvs (Hk & Hp & Hv) _ IH];
    intros d m Hd.
  - cbn [attrsText map concat]. rewrite app_nil_r, attrLoop_step.
    rewrite reExec_needs by (now left). reflexivity.
  - cbn [fst snd] in *. rewrite attrLoop_step.
    assert (E : reExec (d ++ attrsText ((k, v) :: kvs)) = Some (k, v, attrsText kvs)).
    { cbn [attrsText map concat]. unfold attrText at 1. cbn [fst snd app].
      rewrite reExec_skip by exact Hd.
      rewrite <- ?app_assoc; cbn [app]; rewrite <- ?app_assoc; cbn [app].
      exact (reExec_attr k v (attrsText kvs) Hk Hv). }
    rewrite E, setProp_insert by exact Hp.
    apply (IH [] (<[k:=v]> m)). inversion 1.
Qed.

(** The entries of the result come from the text. *)
Lemma attrLoop_written (S s : list N) (m : gmap (list N) (list N)) (k v : list N) :
  (exists a, S = a ++ s) ->
  (forall k v, m !! k = Some v ->
     validKey k /\ k <> JS.lit "__proto__" /\ (JS.DQUOTE ∉ v) /\ written S k v) ->
  attrLoop s m !! k = Some v ->
  validKey k /\ k <> JS.lit "__proto__" /\ (JS.DQUOTE ∉ v) /\ written S k v.
Proof.
  remember (length s) as n eqn:Hn. revert s m Hn.
  induction n as [n IH] using lt_wf_ind. intros s m Hn [a0 HS] Hm.
  rewrite attrLoop_step.
  destruct (reExec s) as [[[k' v'] rest]|] eqn:E; [|apply Hm].
  pose proof (reExec_spec _ _ _ _ E) as (Hk & Hv & a & Hs).
  apply (IH (length rest)) with (s := rest); [|reflexivity| |].
  - subst n. rewrite Hs, !length_app. cbn [length]. lia.
  - exists (a0 ++ a ++ k' ++ [JS.EQUALS; JS.DQUOTE] ++ v' ++ [JS.DQUOTE]).
    rewrite HS, Hs, <- !app_assoc. reflexivity.
  - intros k1 v1. unfold setProp.
    destruct (JS.eqb k' (JS.lit "__proto__")) eqn:Ep; [apply Hm|].
    rewrite lookup_insert. destruct (decide (k' = k1)) as [<- | Hne]; [|apply Hm].
    intros H1; inversion H1; subst v1.
    split; [exact Hk | split; [|split; [exact Hv|]]].
    + intros ->. vm_compute in Ep. discriminate.
    + exists (a0 ++ a), rest. rewrite HS, Hs, <- !app_assoc. reflexivity.
Qed.

Lemma wordOrHyphen_plain c :
  wordOrHyphen c = true -> c <> JS.COMMA /\ c <> JS.EQUALS /\ JS.isWhiteSpace c = false.
Proof.
  unfold wordOrHyphen, JS.isWord, JS.isWhiteSpace, JS.COMMA, JS.EQUALS, JS.HYPHEN,
    JS.UNDERSCORE.
  rewrite !orb_true_iff, !andb_true_iff, !N.leb_le, !N.eqb_eq.
  intros H. repeat split; try lia.
  rewrite !orb_false_iff, !andb_false_iff, !N.leb_gt, !N.eqb_neq. lia.
Qed.

End Attributes.
Section AttributesMore.

Lemma putAll_absent (kvs : list (list N * list N)) (m : gmap (list N) (list N)) (k : list N) :
  k ∉ map fst kvs -> putAll kvs m !! k = m !! k.
Proof.
  revert m. induction kvs as [|[k' v'] kvs IH]; intros m H; [reflexivity|].
  cbn [putAll fold_left fst snd map] in *. fold (putAll kvs (<[k':=v']> m)).
  rewrite IH by (intros Hin; apply H; now constructor).
  apply lookup_insert_ne. intros ->. apply H. constructor.
Qed.

Lemma putAll_last (kvs1 kvs2 : list (list N * list N)) (m : gmap (list N) (list N)) (k v : list N) :
  k ∉ map fst kvs2 -> putAll (kvs1 ++ (k, v) :: kvs2) m !! k = Some v.
Proof.
  intros H. unfold putAll. rewrite fold_left_app. cbn [fold_left fst snd].
  fold (putAll kvs1 m). fold (putAll kvs2 (<[k:=v]> (putAll kvs1 m))).
  rewrite putAll_absent by exact H. apply lookup_insert_eq.
Qed.

Lemma attrsText_no_comma kvs :
  Forall validAttr kvs -> Forall (fun kv => JS.COMMA ∉ snd kv) kvs ->
  JS.COMMA ∉ attrsText kvs.
Proof.
  intros H. induction H as [|[k v] kvs (Hk & _ & _) _ IH]; intros Hc.
  - inversion 1.
  - inversion Hc as [|? ? Hv Hc']; subst. cbn [snd fst] in *.
    cbn [attrsText map concat]. fold (attrsText kvs). unfold attrText. cbn [fst snd].
    intros Hin. apply elem_of_app in Hin. destruct Hin as [Hin | Hin]; [|now apply IH].
    apply elem_of_cons in Hin. destruct Hin as [Hin | Hin]; [discriminate|].
    apply elem_of_app in Hin. destruct Hin as [Hin | Hin].
    + destruct Hk as (c & r & -> & Hc1 & Hr).
      assert (Hall : Forall (fun x => wordOrHyphen x = true) (c :: r)).
      { constructor; [|exact Hr]. unfold wordOrHyphen. now rewrite Hc1. }
      rewrite Forall_forall in Hall. apply Hall in Hin.
      now apply wordOrHyphen_plain in Hin.
    + cbn [app] in Hin.
      apply elem_of_cons in Hin. destruct Hin as [Hin | Hin]; [discriminate|].
      apply elem_of_cons in Hin. destruct Hin as [Hin | Hin]; [discriminate|].
      apply elem_of_app in Hin. destruct Hin as [Hin | Hin]; [contradiction|].
      apply list_elem_of_singleton in Hin. discriminate.
Qed.

Lemma snoc_cases {A} (l : list A) : l = [] \/ exists r x, l = r ++ [x].
Proof.
  induction l as [|x r _] using rev_ind; [now left | right; now exists r, x].
Qed.

Lemma attrText_snoc k v :
  attrText (k, v) = (32%N :: k ++ [JS.EQUALS; JS.DQUOTE] ++ v) ++ [JS.DQUOTE].
Proof. unfold attrText. cbn [fst snd app]. now rewrite <- !app_assoc. Qed.

Lemma attrsText_last_quote kvs c s :
  attrsText kvs = s ++ [c] -> c = JS.DQUOTE.
Proof.
  revert s. induction kvs as [|[k v] kvs IH]; intros s E.
  - now destruct s.
  - cbn [attrsText map concat] in E. fold (attrsText kvs) in E.
    destruct (snoc_cases (attrsText kvs)) as [Er | (r & x & Er)]; rewrite Er in E.
    + rewrite app_nil_r, attrText_snoc in E.
      apply app_inj_tail in E. now destruct E.
    + rewrite app_assoc in E. apply app_inj_tail in E. destruct E as [_ <-].
      now apply (IH r).
Qed.

(** Where the white space at the end of a text starts. *)
Lemma trimEnd_split t :
  exists t' b, t = t' ++ b /\ blank b
               /\ (forall c s, t' = s ++ [c] -> JS.isWhiteSpace c = false).
Proof.
  destruct (dropWhile_split JS.isWhiteSpace (rev t)) as [a [E Ha]].
  exists (rev (JS.dropWhile JS.isWhiteSpace (rev t))), (rev a). split; [|split].
  - rewrite <- rev_app_distr, <- E. symmetry. apply rev_involutive.
  - now apply blank_rev.
  - intros c s Hs. apply (f_equal (@rev N)) in Hs.
    rewrite rev_involutive, rev_app_distr in Hs. cbn in Hs.
    now apply dropWhile_head in Hs.
Qed.

Lemma trimmed_trim_id x : trimmed x -> JS.trim x = x.
Proof.
  intros H. rewrite <- (app_nil_r x) at 1.
  apply (trim_unique [] x []); [constructor | constructor | exact H].
Qed.

Lemma trim_app_blank t b : blank b -> JS.trim (t ++ b) = JS.trim t.
Proof.
  intros Hb. destruct (trim_spec t) as (a1 & b1 & E & Ha1 & Hb1 & Ht).
  rewrite E at 1. rewrite <- !app_assoc.
  apply trim_unique; [exact Ha1 | | exact Ht].
  apply Forall_app. now split.
Qed.

End AttributesMore.

(** X7. Attributes written one after the other, each after a space, are
    all read: the map holds for every key the value of its last occurrence,
    and nothing for a key that does not occur. *)
Theorem parseAttributes_attrsText d kvs :
  JS.EQUALS ∉ d -> Forall validAttr kvs ->
  parseAttributes (d ++ attrsText kvs) = putAll kvs ∅
  /\ (forall kvs1 k v kvs2, kvs = kvs1 ++ (k, v) :: kvs2 -> k ∉ map fst kvs2 ->
        parseAttributes (d ++ attrsText kvs) !! k = Some v)
  /\ (forall k, k ∉ map fst kvs -> parseAttributes (d ++ attrsText kvs) !! k = None).
Proof.
  intros Hd H.
  assert (E : parseAttributes (d ++ attrsText kvs) = putAll kvs ∅)
    by (now apply attrLoop_attrsText).
  split; [exact E | split].
  - intros kvs1 k v kvs2 -> Hk. rewrite E. now apply putAll_last.
  - intros k Hk. rewrite E, putAll_absent by exact Hk. apply lookup_empty.
Qed.

Lemma parseAttributes_attrsText_witness :
  parseAttributes (JS.lit "-1" ++ attrsText sampleAttrs) = putAll sampleAttrs ∅
  /\ parseAttributes (JS.lit "-1" ++ attrsText sampleAttrs) !! JS.lit "tvg-id"
     = Some (JS.lit "id2")
  /\ parseAttributes (JS.lit "-1" ++ attrsText sampleAttrs) !! JS.lit "tvg-name" = None.
Proof.
  assert (Hd : JS.EQUALS ∉ JS.lit "-1").
  { apply (bool_decide_unpack _). vm_compute. exact I. }
  assert (Hs : Forall validAttr sampleAttrs).
  { repeat constructor; cbn [fst snd];
      try (eexists _, _; split; [reflexivity | split; [reflexivity|]];
           apply (bool_decide_unpack _); vm_compute; exact I);
      try (vm_compute; discriminate);
      apply (bool_decide_unpack _); vm_compute; exact I. }
  destruct (parseAttributes_attrsText (JS.lit "-1") sampleAttrs Hd Hs) as (H1 & H2 & H3).
  split; [exact H1 | split].
  - apply (H2 [(JS.lit "tvg-id", JS.lit "id1"); (JS.lit "group-title", JS.lit "News")]
              (JS.lit "tvg-id") (JS.lit "id2") []); [reflexivity | inversion 1].
  - apply H3. apply (bool_decide_unpack _). vm_compute. exact I.
Defined.

(** X8. Every attribute of the result is written in the text, key, equals
    sign and quoted value; its key starts with a word character and goes on
    with word characters and hyphens, and its value holds no double quote. *)
Theorem parseAttributes_entries (s k v : list N) :
  parseAttributes s !! k = Some v ->
  validKey k /\ k <> JS.lit "__proto__" /\ (JS.DQUOTE ∉ v) /\ written s k v.
Proof.
  intros H. apply (attrLoop_written s s ∅ k v); [now exists [] | | exact H].
  intros k' v' H'. rewrite lookup_empty in H'. discriminate.
Qed.

Lemma parseAttributes_entries_witness :
  validKey (JS.lit "tvg-id") /\ JS.lit "tvg-id" <> JS.lit "__proto__"
  /\ (JS.DQUOTE ∉ JS.lit "id2")
  /\ written (JS.lit "-1" ++ attrsText sampleAttrs) (JS.lit "tvg-id") (JS.lit "id2").
Proof.
  apply (parseAttributes_entries (JS.lit "-1" ++ attrsText sampleAttrs)).
  vm_compute. reflexivity.
Defined.

(** X9. A text without an equals sign, or without a double quote, has no
    attributes: unquoted and single-quoted values are not read. *)
Theorem parseAttributes_needs_quotes s :
  JS.EQUALS ∉ s \/ JS.DQUOTE ∉ s -> parseAttributes s = ∅.
Proof.
  intros H. unfold parseAttributes. rewrite attrLoop_step.
  now rewrite reExec_needs.
Qed.

Lemma parseAttributes_needs_quotes_witness :
  parseAttributes (JS.lit "-1 group-title=News tvg-id='x'") = ∅.
Proof.
  apply parseAttributes_needs_quotes. right.
  apply (bool_decide_unpack _). vm_compute. exact I.
Defined.

(** X10. A metadata line written the usual way, the marker, a duration,
    the attributes, a comma and the title, is taken as a metadata line and
    gives the pending entry all its attributes, its title trimmed, and the
    name the two decide. *)
Theorem newPending_metaLine d kvs t :
  validDuration d -> Forall validAttr kvs ->
  Forall (fun kv => JS.COMMA ∉ snd kv) kvs ->
  isMeta (metaLine d kvs t)
  /\ p_attrs (newPending (JS.trim (metaLine d kvs t))) = putAll kvs ∅
  /\ p_title (newPending (JS.trim (metaLine d kvs t))) = JS.trim t
  /\ p_name (newPending (JS.trim (metaLine d kvs t))) = nameOf (putAll kvs ∅) (JS.trim t).
Proof.
  intros [Hne Hd] Hkvs Hcomma.
  destruct (trimEnd_split t) as (t' & b & -> & Hb & Hlast).
  set (a := d ++ attrsText kvs).
  assert (Htrim : JS.trim (metaLine d kvs (t' ++ b)) = EXTINF ++ a ++ JS.COMMA :: t').
  { unfold metaLine. fold a.
    replace (EXTINF ++ d ++ attrsText kvs ++ JS.COMMA :: t' ++ b)
      with ([] ++ (EXTINF ++ a ++ JS.COMMA :: t') ++ b)
      by (unfold a; cbn [app]; now rewrite <- !app_assoc).
    apply trim_unique; [constructor | exact Hb|]. split.
    - intros c r E. inversion E. reflexivity.
    - intros c r E. destruct (snoc_cases t') as [-> | (t0 & x & ->)].
      + replace (EXTINF ++ a ++ [JS.COMMA]) with ((EXTINF ++ a) ++ [JS.COMMA]) in E
          by now rewrite <- app_assoc.
        apply app_inj_tail in E. destruct E as [_ <-]. reflexivity.
      + replace (EXTINF ++ a ++ JS.COMMA :: t0 ++ [x])
          with ((EXTINF ++ a ++ JS.COMMA :: t0) ++ [x]) in E
          by (rewrite <- !app_assoc; reflexivity).
        apply app_inj_tail in E. destruct E as [_ <-]. now apply (Hlast x t0). }
  assert (Ha_comma : JS.COMMA ∉ a).
  { unfold a. intros Hin. apply elem_of_app in Hin. destruct Hin as [Hin | Hin].
    - rewrite Forall_forall in Hd. destruct (Hd _ Hin) as (_ & _ & H). now apply H.
    - now apply (attrsText_no_comma kvs). }
  assert (Ha_eq : JS.EQUALS ∉ d).
  { intros Hin. rewrite Forall_forall in Hd. destruct (Hd _ Hin) as (_ & H & _).
    now apply H. }
  assert (Ha_trim : JS.trim a = a).
  { apply trimmed_trim_id. split.
    - intros c r E. unfold a in E. destruct d as [|x d']; [now elim Hne|].
      inversion E; subst. inversion Hd as [|? ? [Hx _] _]; subst. exact Hx.
    - intros c r E. unfold a in E.
      destruct (snoc_cases (attrsText kvs)) as [Eq | (q & y & Eq)]; rewrite Eq in E.
      + rewrite app_nil_r in E. subst d. rewrite Forall_app in Hd.
        destruct Hd as [_ Hd]. inversion Hd as [|? ? [Hx _] _]; subst. exact Hx.
      + rewrite app_assoc in E. apply app_inj_tail in E. destruct E as [_ <-].
        rewrite (attrsText_last_quote kvs y q Eq). reflexivity. }
  assert (Hafter : JS.substringFrom (Z.of_nat (length EXTINF))
                     (EXTINF ++ a ++ JS.COMMA :: t') = a ++ JS.COMMA :: t').
  { unfold JS.substringFrom. rewrite Nat2Z.id. apply drop_app_length. }
  assert (Hmeta : metaOf (a ++ JS.COMMA :: t') = a).
  { unfold metaOf. rewrite indexOf_first by exact Ha_comma.
    destruct (Z.geb_spec (Z.of_nat (length a)) 0); [|lia].
    unfold JS.substring. change (Z.to_nat 0) with 0%nat.
    rewrite Nat2Z.id, Nat.sub_0_r, drop_0, take_app_length. exact Ha_trim. }
  assert (Htitle : titleOf (a ++ JS.COMMA :: t') = JS.trim (t' ++ b)).
  { rewrite titleOf_comma by exact Ha_comma. symmetry. now apply trim_app_blank. }
  assert (Hattrs : parseAttributes a = putAll kvs ∅).
  { unfold a. now apply attrLoop_attrsText. }
  split; [|split; [|split]].
  - unfold isMeta. rewrite Htrim. apply startsWith_app.
  - rewrite Htrim. unfold newPending. cbn [p_attrs]. now rewrite Hafter, Hmeta.
  - rewrite Htrim. unfold newPending. cbn [p_title]. now rewrite Hafter.
  - rewrite Htrim. unfold newPending. cbn [p_name].
    now rewrite Hafter, Hmeta, Htitle, Hattrs.
Qed.

Lemma newPending_metaLine_witness :
  isMeta (metaLine (JS.lit "-1") sampleAttrs (JS.lit " News HD "))
  /\ p_attrs (newPending (JS.trim (metaLine (JS.lit "-1") sampleAttrs (JS.lit " News HD "))))
     = putAll sampleAttrs ∅
  /\ p_title (newPending (JS.trim (metaLine (JS.lit "-1") sampleAttrs (JS.lit " News HD "))))
     = JS.trim (JS.lit " News HD ")
  /\ p_name (newPending (JS.trim (metaLine (JS.lit "-1") sampleAttrs (JS.lit " News HD "))))
     = nameOf (putAll sampleAttrs ∅) (JS.trim (JS.lit " News HD ")).
Proof.
  apply (newPending_metaLine (JS.lit "-1") sampleAttrs (JS.lit " News HD ")).
  - split; [vm_compute; discriminate|].
    repeat constructor; vm_compute; discriminate.
  - repeat constructor; cbn [fst snd];
      try (eexists _, _; split; [reflexivity | split; [reflexivity|]];
           apply (bool_decide_unpack _); vm_compute; exact I);
      try (vm_compute; discriminate);
      apply (bool_decide_unpack _); vm_compute; exact I.
  - repeat constructor; cbn [snd]; apply (bool_decide_unpack _); vm_compute; exact I.
Defined.

(** ** Properties of [parseAllowUsers] *)

Section AllowUsers.

Lemma splitOn_ne sep s : JS.splitOn sep s <> [].
Proof.
  induction s as [|c s IH]; cbn [JS.splitOn]; [discriminate|].
  destruct (c =? sep)%N; [discriminate|].
  destruct (JS.splitOn sep s); [contradiction | discriminate].
Qed.

Lemma splitOn_app sep a b :
  JS.splitOn sep (a ++ sep :: b) = JS.splitOn sep a ++ JS.splitOn sep b.
Proof.
  induction a as [|c a IH]; cbn [app JS.splitOn].
  - now rewrite N.eqb_refl.
  - destruct (c =? sep)%N; rewrite IH; [reflexivity|].
    apply consFirst_app, splitOn_ne.
Qed.

Lemma splitOn_none sep s : sep ∉ s -> JS.splitOn sep s = [s].
Proof.
  induction s as [|c s IH]; intros H; cbn [JS.splitOn]; [reflexivity|].
  destruct (c =? sep)%N eqn:E.
  - apply N.eqb_eq in E. subst. exfalso. apply H. constructor.
  - rewrite IH by (intros Hin; apply H; now constructor). reflexivity.
Qed.

(** The pieces hold characters of the text, the separator excepted. *)
Lemma splitOn_elem sep s l x :
  l ∈ JS.splitOn sep s -> x ∈ l -> x ∈ s /\ x <> sep.
Proof.
  revert l. induction s as [|c s IH]; intros l; cbn [JS.splitOn].
  - intros Hl Hx. apply list_elem_of_singleton in Hl. subst. inversion Hx.
  - destruct (c =? sep)%N eqn:E.
    + intros Hl Hx. apply elem_of_cons in Hl. destruct Hl as [-> | Hl]; [inversion Hx|].
      destruct (IH l Hl Hx) as [H1 H2]. split; [now constructor | exact H2].
    + intros Hl Hx. destruct (consFirst_elem _ _ _ _ Hl Hx) as [-> | (l' & Hl' & Hx')].
      * split; [constructor | now apply N.eqb_neq].
      * destruct (IH l' Hl' Hx') as [H1 H2]. split; [now constructor | exact H2].
Qed.

Lemma trim_elem s x : x ∈ JS.trim s -> x ∈ s.
Proof.
  intros H. destruct (trim_spec s) as (a & b & E & _). rewrite E.
  rewrite !elem_of_app. auto.
Qed.

(** What one pair adds: nothing, or a user name and a password that hold
    characters of the pair, no colon among them. *)
Lemma addPair_spec (m : gmap (list N) (list N)) (pair : list N) :
  addPair m pair = m
  \/ exists u p, addPair m pair = <[u := p]> m /\ u <> []
                 /\ (forall x, x ∈ u -> x ∈ pair /\ x <> JS.COLON)
                 /\ (forall x, x ∈ p -> x ∈ pair /\ x <> JS.COLON).
Proof.
  unfold addPair.
  destruct (JS.splitOn JS.COLON pair) as [|u [|p rest]] eqn:E.
  - now left.
  - cbn. destruct u as [|c u]; [now left | right].
    exists (c :: u), []. split; [reflexivity | split; [discriminate | split]].
    + intros x Hx. apply (splitOn_elem JS.COLON pair (c :: u)); [|exact Hx].
      rewrite E. constructor.
    + inversion 1.
  - cbn. destruct u as [|c u]; [now left | right].
    exists (c :: u), (JS.orElse (Some p) []).
    split; [reflexivity | split; [discriminate | split]].
    + intros x Hx. apply (splitOn_elem JS.COLON pair (c :: u)); [|exact Hx].
      rewrite E. constructor.
    + intros x Hx. apply (splitOn_elem JS.COLON pair p).
      * rewrite E. constructor. constructor.
      * destruct p; [inversion Hx | exact Hx].
Qed.

Lemma fold_addPair_spec (P : list N -> list N -> Prop) (pairs : list (list N))
    (m : gmap (list N) (list N)) :
  (forall u p, m !! u = Some p -> P u p) ->
  (forall pair u p, pair ∈ pairs -> u <> [] ->
     (forall x, x ∈ u -> x ∈ pair /\ x <> JS.COLON) ->
     (forall x, x ∈ p -> x ∈ pair /\ x <> JS.COLON) -> P u p) ->
  forall u p, fold_left addPair pairs m !! u = Some p -> P u p.
Proof.
  revert m. induction pairs as [|pair pairs IH]; intros m Hm HP; [exact Hm|].
  cbn [fold_left]. apply IH.
  - destruct (addPair_spec m pair) as [-> | (u0 & p0 & -> & Hu & Hxu & Hxp)]; [exact Hm|].
    intros u p. rewrite lookup_insert. destruct (decide (u0 = u)) as [<- | _]; [|apply Hm].
    intros H; inversion H; subst. apply (HP pair); [constructor | assumption..].
  - intros pair' u p Hin. apply HP. now constructor.
Qed.

Lemma credText_chars up x :
  validCred up -> x ∈ credText up -> JS.isWhiteSpace x = false /\ x <> JS.COMMA.
Proof.
  intros (_ & Hu & Hp) Hx. unfold credText in Hx.
  rewrite !elem_of_app in Hx. rewrite Forall_forall in Hu, Hp.
  destruct Hx as [Hx | [Hx | Hx]].
  - destruct (Hu _ Hx) as (? & ? & _). auto.
  - apply list_elem_of_singleton in Hx. subst. split; [reflexivity | discriminate].
  - destruct (Hp _ Hx) as (? & ? & _). auto.
Qed.

Lemma trim_credText up : validCred up -> JS.trim (credText up) = credText up.
Proof.
  intros H. apply trimmed_trim_id. split; intros c t' E;
    apply (credText_chars up c H); rewrite E.
  - constructor.
  - apply elem_of_app. right. constructor.
Qed.

Lemma addPair_credText (m : gmap (list N) (list N)) (up : list N * list N) :
  validCred up -> addPair m (credText up) = <[fst up := snd up]> m.
Proof.
  intros (Hne & Hu & Hp). destruct up as [u p]. cbn [fst snd] in *.
  unfold addPair, credText. cbn [fst snd app].
  rewrite splitOn_app, !splitOn_none.
  - cbn. destruct u as [|c u]; [now elim Hne|]. cbn. now destruct p.
  - intros Hin. rewrite Forall_forall in Hp. destruct (Hp _ Hin) as (_ & _ & H). now apply H.
  - intros Hin. rewrite Forall_forall in Hu. destruct (Hu _ Hin) as (_ & _ & H). now apply H.
Qed.

Lemma splitOn_allowText ups :
  Forall validCred ups -> ups <> [] ->
  JS.splitOn JS.COMMA (allowText ups) = map credText ups.
Proof.
  intros H. induction H as [|up ups Hup Hups IH]; intros Hne; [now elim Hne|].
  assert (Hc : JS.COMMA ∉ credText up).
  { intros Hin. now apply (credText_chars up _ Hup) in Hin. }
  destruct ups as [|up' ups].
  - cbn [allowText map]. now apply splitOn_none.
  - change (allowText (up :: up' :: ups))
      with (credText up ++ [JS.COMMA] ++ allowText (up' :: ups)).
    cbn [app]. rewrite splitOn_app, splitOn_none by exact Hc.
    rewrite IH by discriminate. reflexivity.
Qed.

Lemma pieces_allowText ups :
  Forall validCred ups ->
  filter (fun s => JS.truthy s = true) (map JS.trim (JS.splitOn JS.COMMA (allowText ups)))
  = map credText ups.
Proof.
  intros H. destruct ups as [|up ups]; [reflexivity|].
  rewrite splitOn_allowText by (exact H || discriminate).
  induction H as [|up' ups' Hup _ IH]; [reflexivity|].
  cbn [map]. rewrite trim_credText by exact Hup.
  rewrite filter_cons_True.
  - now rewrite IH.
  - destruct Hup as (Hne & _). destruct up' as [[|c u] p]; [now elim Hne | reflexivity].
Qed.

Lemma fold_addPair_credText (ups : list (list N * list N)) (m : gmap (list N) (list N)) :
  Forall validCred ups -> fold_left addPair (map credText ups) m = putAll ups m.
Proof.
  intros H. revert m. induction H as [|up ups Hup _ IH]; intros m; [reflexivity|].
  cbn [map fold_left putAll]. rewrite addPair_credText by exact Hup. apply IH.
Qed.

End AllowUsers.

(** X11. An unset variable, an empty one, and one of commas and white
    space only give the empty allow-list: every request is then allowed. *)
Theorem parseAllowUsers_open :
  parseAllowUsers None = ∅
  /\ (forall raw, onlySeparators raw -> parseAllowUsers (Some raw) = ∅)
  /\ (forall raw u p, onlySeparators raw ->
        okUserPass (parseAllowUsers (Some raw)) u p = true).
Proof.
  assert (H : forall raw, onlySeparators raw -> parseAllowUsers (Some raw) = ∅).
  { intros raw Hraw. unfold parseAllowUsers.
    assert (E : JS.orElse (Some raw) [] = raw) by (now destruct raw). rewrite E.
    destruct (filter _ _) as [|l ls] eqn:Ef; [reflexivity | exfalso].
    assert (Hl : l ∈ l :: ls) by constructor. rewrite <- Ef in Hl.
    apply list_elem_of_filter in Hl. destruct Hl as [Ht Hl].
    apply list_elem_of_fmap in Hl. destruct Hl as (l0 & -> & Hl0).
    rewrite trim_blank in Ht; [discriminate|].
    apply Forall_forall. intros x Hx.
    destruct (splitOn_elem _ _ _ _ Hl0 Hx) as [Hin Hne].
    unfold onlySeparators in Hraw. rewrite Forall_forall in Hraw.
    destruct (Hraw x Hin); [contradiction | assumption]. }
  split; [reflexivity | split; [exact H|]].
  intros raw u p Hraw. rewrite H by exact Hraw. reflexivity.
Qed.

Lemma parseAllowUsers_open_witness :
  parseAllowUsers (Some (JS.lit " , ,,  ")) = ∅
  /\ okUserPass (parseAllowUsers (Some (JS.lit " , ,,  "))) alice (VString secret) = true.
Proof.
  assert (H : onlySeparators (JS.lit " , ,,  ")).
  { repeat constructor; (left; reflexivity) || (right; reflexivity). }
  split.
  - apply (proj1 (proj2 parseAllowUsers_open)). exact H.
  - apply (proj2 (proj2 parseAllowUsers_open)). exact H.
Defined.

(** X12. No user name of the allow-list is empty, and neither a user name
    nor a password holds a comma or a colon: what follows a second colon of
    an entry is dropped. With a non-empty allow-list, an empty user name and
    a password with a comma or a colon are therefore never accepted. *)
Theorem parseAllowUsers_entries :
  (forall env u p, parseAllowUsers env !! u = Some p ->
     u <> [] /\ (JS.COMMA ∉ u) /\ (JS.COLON ∉ u)
     /\ (JS.COMMA ∉ p) /\ (JS.COLON ∉ p))
  /\ (forall env p, parseAllowUsers env <> ∅ ->
        okUserPass (parseAllowUsers env) [] (VString p) = false)
  /\ (forall env u p, parseAllowUsers env <> ∅ ->
        JS.COMMA ∈ p \/ JS.COLON ∈ p ->
        okUserPass (parseAllowUsers env) u (VString p) = false).
Proof.
  assert (H : forall env u p, parseAllowUsers env !! u = Some p ->
     u <> [] /\ (JS.COMMA ∉ u) /\ (JS.COLON ∉ u)
     /\ (JS.COMMA ∉ p) /\ (JS.COLON ∉ p)).
  { intros env. unfold parseAllowUsers.
    apply (fold_addPair_spec
             (fun u p => u <> [] /\ (JS.COMMA ∉ u) /\ (JS.COLON ∉ u)
                         /\ (JS.COMMA ∉ p) /\ (JS.COLON ∉ p))).
    - intros u0 p0 H0. rewrite lookup_empty in H0. discriminate.
    - intros pair u0 p0 Hpair Hne Hu Hp.
      apply list_elem_of_filter in Hpair. destruct Hpair as [_ Hpair].
      apply list_elem_of_fmap in Hpair. destruct Hpair as (l & -> & Hl).
      assert (Hnc : forall x, x ∈ JS.trim l -> x <> JS.COMMA).
      { intros x Hx. apply trim_elem in Hx.
        now destruct (splitOn_elem _ _ _ _ Hl Hx). }
      split; [exact Hne | repeat split].
      + intros Hin. destruct (Hu _ Hin) as [Hx _]. now apply (Hnc _ Hx).
      + intros Hin. now destruct (Hu _ Hin).
      + intros Hin. destruct (Hp _ Hin) as [Hx _]. now apply (Hnc _ Hx).
      + intros Hin. now destruct (Hp _ Hin). }
  split; [exact H | split].
  - intros env p Hne.
    destruct (okUserPass (parseAllowUsers env) [] (VString p)) eqn:E; [|reflexivity].
    apply okUserPass_closed in E; [|exact Hne].
    apply H in E. now destruct E.
  - intros env u p Hne Hp.
    destruct (okUserPass (parseAllowUsers env) u (VString p)) eqn:E; [|reflexivity].
    apply okUserPass_closed in E; [|exact Hne].
    rewrite passOrEmpty_string in E. apply H in E.
    destruct E as (_ & _ & _ & H1 & H2). destruct Hp; contradiction.
Qed.

Lemma parseAllowUsers_entries_witness :
  (JS.lit "dave" <> [] /\ (JS.COMMA ∉ JS.lit "dave") /\ (JS.COLON ∉ JS.lit "dave")
   /\ (JS.COMMA ∉ JS.lit "a") /\ (JS.COLON ∉ JS.lit "a"))
  /\ okUserPass (parseAllowUsers (Some (JS.lit "dave:a:b"))) [] (VString []) = false
  /\ okUserPass (parseAllowUsers (Some (JS.lit "dave:a:b"))) (JS.lit "dave")
       (VString (JS.lit "a:b")) = false.
Proof.
  assert (Hne : parseAllowUsers (Some (JS.lit "dave:a:b")) <> ∅).
  { intros H. apply (f_equal size) in H. vm_compute in H. discriminate. }
  split; [|split].
  - apply (proj1 parseAllowUsers_entries (Some (JS.lit "dave:a:b"))).
    vm_compute. reflexivity.
  - apply (proj1 (proj2 parseAllowUsers_entries)). exact Hne.
  - apply (proj2 (proj2 parseAllowUsers_entries)); [exact Hne|].
    right. apply (bool_decide_unpack _). vm_compute. exact I.
Defined.

(** X13. An allow-list written the usual way, user:password entries with
    commas between, is read entry by entry, a later entry of a user
    replacing an earlier one; the user of an entry is then let in with the
    password of its last entry. *)
Theorem parseAllowUsers_allowText ups :
  Forall validCred ups ->
  parseAllowUsers (Some (allowText ups)) = putAll ups ∅
  /\ (forall ups1 u p ups2, ups = ups1 ++ (u, p) :: ups2 -> u ∉ map fst ups2 ->
        okUserPass (parseAllowUsers (Some (allowText ups))) u (VString p) = true).
Proof.
  intros H.
  assert (E : parseAllowUsers (Some (allowText ups)) = putAll ups ∅).
  { unfold parseAllowUsers.
    assert (Er : JS.orElse (Some (allowText ups)) [] = allowText ups)
      by (now destruct (allowText ups)).
    rewrite Er, pieces_allowText by exact H. now apply fold_addPair_credText. }
  split; [exact E|].
  intros ups1 u p ups2 -> Hu. rewrite E.
  apply okUserPass_closed.
  - intros Hm. apply (f_equal (fun m : gmap (list N) (list N) => m !! u)) in Hm.
    rewrite putAll_last, lookup_empty in Hm by exact Hu. discriminate.
  - rewrite passOrEmpty_string. now apply putAll_last.
Qed.

Lemma parseAllowUsers_allowText_witness :
  parseAllowUsers (Some (allowText sampleCreds)) = putAll sampleCreds ∅
  /\ okUserPass (parseAllowUsers (Some (allowText sampleCreds))) alice
       (VString (JS.lit "s3cret")) = true.
Proof.
  assert (H : Forall validCred sampleCreds).
  { repeat constructor; cbn [fst snd]; try (vm_compute; discriminate). }
  destruct (parseAllowUsers_allowText sampleCreds H) as [H1 H2].
  split; [exact H1|].
  apply (H2 [(alice, secret); (bob, [])] alice (JS.lit "s3cret") []);
    [reflexivity | inversion 1].
Defined.

(** ** Further properties of the cache *)

Section CacheMore.

Variable CACHE_TTL_MS : Z.

Implicit Types (now : Z) (c : cache) (w : upstream).

Lemma fetchM3U_hit now c w (text : list N) :
  m3uText c = Some text -> text <> [] ->
  (now - fetchedAt c < CACHE_TTL_MS)%Z ->
  fetchM3U CACHE_TTL_MS now c w = (Ok text, c, w).
Proof.
  intros Ht Hne Hlt. unfold fetchM3U. rewrite Ht.
  destruct text as [|x text]; [now elim Hne|]. cbn [JS.truthy andb].
  apply Z.ltb_lt in Hlt. now rewrite Hlt.
Qed.

Lemma stale_dec now c : stale CACHE_TTL_MS now c \/ ~ stale CACHE_TTL_MS now c.
Proof.
  unfold stale. destruct (m3uText c) as [[|x t]|]; [auto | | auto].
  destruct (Z.le_gt_cases CACHE_TTL_MS (now - fetchedAt c)); [auto|].
  right. intros [H1 | [H1 | H1]]; [discriminate | discriminate | lia].
Qed.

Lemma not_stale now c :
  ~ stale CACHE_TTL_MS now c ->
  exists text, m3uText c = Some text /\ text <> []
               /\ (now - fetchedAt c < CACHE_TTL_MS)%Z.
Proof.
  unfold stale. intros H. destruct (m3uText c) as [[|x t]|].
  - exfalso. apply H. auto.
  - exists (x :: t). split; [reflexivity | split; [discriminate|]].
    destruct (Z.le_gt_cases CACHE_TTL_MS (now - fetchedAt c)); [|lia].
    exfalso. apply H. auto.
  - exfalso. apply H. auto.
Qed.

Lemma refresh_asks now c w : snd (refresh now c w) = asked w.
Proof.
  unfold refresh, request. fold (asked w).
  destruct (answer w (requests w)) as [e | statusCode bodyText]; [reflexivity|].
  destruct (statusCode >=? 400)%Z; [reflexivity|].
  now destruct bodyText.
Qed.

Lemma refresh_ok now c w statusCode (text : list N) :
  answer w (requests w) = Replied statusCode (Ok text) -> (statusCode < 400)%Z ->
  refresh now c w = (Ok text, replaced now text, asked w).
Proof.
  intros Ha Hlt. unfold refresh, request. fold (asked w). rewrite Ha.
  destruct (Z.geb_spec statusCode 400); [lia | reflexivity].
Qed.

(** What a call that returns a text leaves in the cache. *)
Lemma fetchM3U_returns now c w (text : list N) c' w' :
  fetchM3U CACHE_TTL_MS now c w = (Ok text, c', w') ->
  m3uText c' = Some text
  /\ (consistent c -> parsed c' = Some (parseM3U text))
  /\ (stale CACHE_TTL_MS now c -> c' = replaced now text).
Proof.
  intros H.
  assert (Hr : refresh now c w = (Ok text, c', w') -> c' = replaced now text).
  { unfold refresh, request.
    destruct (answer w (requests w)) as [e | statusCode bodyText]; [discriminate|].
    destruct (statusCode >=? 400)%Z; [discriminate|].
    destruct bodyText as [t | e]; [|discriminate].
    intros E; inversion E; subst. reflexivity. }
  destruct (stale_dec now c) as [Hs | Hs].
  - rewrite fetchM3U_stale in H by exact Hs. apply Hr in H. subst c'.
    split; [reflexivity | split; [reflexivity | reflexivity]].
  - destruct (not_stale now c Hs) as (t & Ht & Hne & Hlt).
    rewrite (fetchM3U_hit now c w t Ht Hne Hlt) in H. inversion H; subst.
    split; [exact Ht | split; [|contradiction]].
    unfold consistent. intros ->. now rewrite Ht.
Qed.

Lemma fetchM3U_all_or_nothing now c w :
  let '(r, c', _) := fetchM3U CACHE_TTL_MS now c w in
  c' = c \/ exists text, r = Ok text /\ c' = replaced now text.
Proof.
  unfold fetchM3U.
  destruct (m3uText c) as [text|];
    [destruct (JS.truthy text && (now - fetchedAt c <? CACHE_TTL_MS)%Z); [now left|]|].
  all: apply refresh_all_or_nothing.
Qed.

Lemma fetchM3U_keeps_consistent now c w :
  consistent c -> consistent (snd (fst (fetchM3U CACHE_TTL_MS now c w))).
Proof.
  intros Hc. pose proof (fetchM3U_all_or_nothing now c w) as H.
  destruct (fetchM3U CACHE_TTL_MS now c w) as [[r c'] w']. cbn [fst snd].
  destruct H as [-> | (text & _ & ->)]; [exact Hc | reflexivity].
Qed.

End CacheMore.

(** X14. A call on a stale cache makes exactly one request, whatever comes
    back; when the answer has a status below 400 and a body, the call
    returns the body and the cache holds it, its parse and the time of the
    call. *)
Theorem fetchM3U_stale_call CACHE_TTL_MS now c w :
  stale CACHE_TTL_MS now c ->
  snd (fetchM3U CACHE_TTL_MS now c w) = asked w
  /\ (forall statusCode text,
        answer w (requests w) = Replied statusCode (Ok text) ->
        (statusCode < 400)%Z ->
        fetchM3U CACHE_TTL_MS now c w = (Ok text, replaced now text, asked w)).
Proof.
  intros Hs. rewrite fetchM3U_stale by exact Hs. split.
  - apply refresh_asks.
  - intros statusCode text Ha Hlt. now apply (refresh_ok now c w statusCode).
Qed.

Lemma fetchM3U_stale_call_witness :
  snd (fetchM3U 300000 1000 initialCache (steady (JS.lit "#EXTM3U")))
  = asked (steady (JS.lit "#EXTM3U"))
  /\ fetchM3U 300000 1000 initialCache (steady (JS.lit "#EXTM3U"))
     = (Ok (JS.lit "#EXTM3U"), replaced 1000 (JS.lit "#EXTM3U"),
        asked (steady (JS.lit "#EXTM3U"))).
Proof.
  destruct (fetchM3U_stale_call 300000 1000 initialCache (steady (JS.lit "#EXTM3U")))
    as [H1 H2]; [now left|].
  split; [exact H1|].
  apply (H2 200%Z); [reflexivity | reflexivity].
Defined.

(** X15. The cache always holds the parse of the text it holds: this is so
    at the start, every call keeps it, and so it is after any number of
    calls. A call that returns a text leaves that text in the cache. *)
Theorem fetchM3U_consistent :
  consistent initialCache
  /\ (forall CACHE_TTL_MS now c w,
        consistent c -> consistent (snd (fst (fetchM3U CACHE_TTL_MS now c w))))
  /\ (forall CACHE_TTL_MS nows w,
        consistent (fst (calls CACHE_TTL_MS nows initialCache w)))
  /\ (forall CACHE_TTL_MS now c w text c' w',
        fetchM3U CACHE_TTL_MS now c w = (Ok text, c', w') ->
        m3uText c' = Some text /\ (consistent c -> parsed c' = Some (parseM3U text))).
Proof.
  split; [reflexivity | split; [|split]].
  - intros ttl now c w. apply fetchM3U_keeps_consistent.
  - intros ttl nows w.
    assert (H : forall c w, consistent c -> consistent (fst (calls ttl nows c w))).
    { induction nows as [|now nows IH]; intros c w0 Hc; [exact Hc|].
      cbn [calls]. pose proof (fetchM3U_keeps_consistent ttl now c w0 Hc) as Hk.
      destruct (fetchM3U ttl now c w0) as [[r c'] w']. now apply IH. }
    now apply H.
  - intros ttl now c w text c' w' H.
    destruct (fetchM3U_returns ttl now c w text c' w' H) as (H1 & H2 & _). now split.
Qed.

Lemma fetchM3U_consistent_witness :
  consistent (snd (fst (fetchM3U 300000 1000 initialCache (steady sampleTwoMeta))))
  /\ m3uText (replaced 1000 sampleTwoMeta) = Some sampleTwoMeta
  /\ (consistent initialCache ->
      parsed (replaced 1000 sampleTwoMeta) = Some (parseM3U sampleTwoMeta)).
Proof.
  split.
  - apply (proj1 (proj2 fetchM3U_consistent)). reflexivity.
  - apply (proj2 (proj2 (proj2 fetchM3U_consistent)) 300000%Z 1000%Z initialCache
             (steady sampleTwoMeta) sampleTwoMeta (replaced 1000 sampleTwoMeta)
             (asked (steady sampleTwoMeta))).
    reflexivity.
Defined.

(** X16. After a call has returned a non-empty text, every call made while
    less than the TTL has passed since the cached fetch returns the same
    text, with no request and no change of the cache; and the cached fetch
    is that very call when it found the cache stale. *)
Theorem fetchM3U_then_hit CACHE_TTL_MS now now' c w text c' w' :
  fetchM3U CACHE_TTL_MS now c w = (Ok text, c', w') -> text <> [] ->
  (stale CACHE_TTL_MS now c -> fetchedAt c' = now)
  /\ ((now' - fetchedAt c' < CACHE_TTL_MS)%Z ->
      fetchM3U CACHE_TTL_MS now' c' w' = (Ok text, c', w')).
Proof.
  intros H Hne.
  destruct (fetchM3U_returns CACHE_TTL_MS now c w text c' w' H) as (Ht & _ & Hs).
  split.
  - intros Hst. now rewrite (Hs Hst).
  - intros Hlt. now apply fetchM3U_hit.
Qed.

Lemma fetchM3U_then_hit_witness :
  (stale 300000 1000 initialCache -> fetchedAt (replaced 1000 (JS.lit "#EXTM3U")) = 1000%Z)
  /\ ((300999 - fetchedAt (replaced 1000 (JS.lit "#EXTM3U")) < 300000)%Z ->
      fetchM3U 300000 300999 (replaced 1000 (JS.lit "#EXTM3U"))
        (asked (steady (JS.lit "#EXTM3U")))
      = (Ok (JS.lit "#EXTM3U"), replaced 1000 (JS.lit "#EXTM3U"),
         asked (steady (JS.lit "#EXTM3U")))).
Proof.
  apply (fetchM3U_then_hit 300000 1000 300999 initialCache (steady (JS.lit "#EXTM3U"))).
  - reflexivity.
  - vm_compute. discriminate.
Defined.

(** X17. A failure is not remembered: the cache stays stale as time goes
    on, and the next call asks the upstream again. *)
Theorem fetchM3U_failure_then_retry CACHE_TTL_MS now now' c w :
  stale CACHE_TTL_MS now c -> failure (answer w (requests w)) -> (now <= now')%Z ->
  stale CACHE_TTL_MS now' (snd (fst (fetchM3U CACHE_TTL_MS now c w)))
  /\ snd (fetchM3U CACHE_TTL_MS now'
            (snd (fst (fetchM3U CACHE_TTL_MS now c w)))
            (snd (fetchM3U CACHE_TTL_MS now c w)))
     = asked (asked w).
Proof.
  intros Hs Hf Hle.
  rewrite (fetchM3U_stale CACHE_TTL_MS now c w Hs).
  destruct (refresh_failure now c w Hf) as [e ->]. cbn [fst snd].
  assert (Hs' : stale CACHE_TTL_MS now' c).
  { unfold stale in *. destruct Hs as [H | [H | H]]; [auto | auto | right; right; lia]. }
  split; [exact Hs'|].
  rewrite fetchM3U_stale by exact Hs'. apply refresh_asks.
Qed.

Lemma fetchM3U_failure_then_retry_witness :
  stale 300000 2000 (snd (fst (fetchM3U 300000 1000 initialCache (failing 503))))
  /\ snd (fetchM3U 300000 2000
            (snd (fst (fetchM3U 300000 1000 initialCache (failing 503))))
            (snd (fetchM3U 300000 1000 initialCache (failing 503))))
     = asked (asked (failing 503)).
Proof.
  apply (fetchM3U_failure_then_retry 300000 1000 2000 initialCache (failing 503)).
  - now left.
  - left. vm_compute. discriminate.
  - vm_compute. discriminate.
Defined.

(** X18. With a TTL of zero or less nothing is served from the cache: as
    long as the clock does not run backwards, every call asks the
    upstream. *)
Theorem fetchM3U_no_ttl CACHE_TTL_MS now c w :
  (CACHE_TTL_MS <= 0)%Z -> (fetchedAt c <= now)%Z ->
  snd (fetchM3U CACHE_TTL_MS now c w) = asked w.
Proof.
  intros Httl Hle. rewrite fetchM3U_stale; [apply refresh_asks|].
  right; right. lia.
Qed.

Lemma fetchM3U_no_ttl_witness :
  snd (fetchM3U 0 1000 (replaced 1000 (JS.lit "#EXTM3U")) (steady (JS.lit "#EXTM3U")))
  = asked (steady (JS.lit "#EXTM3U")).
Proof.
  apply fetchM3U_no_ttl; vm_compute; discriminate.
Defined.

(** ** Properties of the handlers *)

Section Personalize.

Lemma getSubstitution_plain matched before after repl :
  JS.DOLLAR ∉ repl -> getSubstitution matched before after repl = repl.
Proof.
  induction repl as [|c r IH]; intros H; [reflexivity|].
  cbn [getSubstitution]. destruct (c =? JS.DOLLAR)%N eqn:E.
  - apply N.eqb_eq in E. subst. exfalso. apply H. constructor.
  - rewrite IH by (intros Hin; apply H; now constructor). reflexivity.
Qed.

Lemma replaceAllFrom_skip pat repl before x s :
  replaceAllFrom pat repl before (length x) (x ++ s)
  = replaceAllFrom pat repl (rev x ++ before) 0 s.
Proof.
  revert before. induction x as [|c x IH]; intros before; [reflexivity|].
  cbn [length app replaceAllFrom rev]. rewrite IH, <- app_assoc. reflexivity.
Qed.

Lemma replaceAllFrom_plain c0 pat repl before a s :
  c0 ∉ a ->
  replaceAllFrom (c0 :: pat) repl before 0 (a ++ s)
  = a ++ replaceAllFrom (c0 :: pat) repl (rev a ++ before) 0 s.
Proof.
  revert before. induction a as [|c a IH]; intros before H; [reflexivity|].
  cbn [app replaceAllFrom JS.startsWith rev].
  destruct (c0 =? c)%N eqn:E.
  - apply N.eqb_eq in E. subst. exfalso. apply H. constructor.
  - cbn [andb]. rewrite IH by (intros Hin; apply H; now constructor).
    now rewrite <- app_assoc.
Qed.

Lemma replaceAllFrom_match c0 pat repl before s :
  replaceAllFrom (c0 :: pat) repl before 0 ((c0 :: pat) ++ s)
  = getSubstitution (c0 :: pat) (rev before) s repl
    ++ replaceAllFrom (c0 :: pat) repl (rev (c0 :: pat) ++ before) 0 s.
Proof.
  cbn [app replaceAllFrom]. change (c0 :: pat ++ s) with ((c0 :: pat) ++ s).
  rewrite startsWith_app, drop_app_length. f_equal.
  replace (length (c0 :: pat) - 1) with (length pat) by (cbn [length]; lia).
  rewrite replaceAllFrom_skip. cbn [rev]. now rewrite <- app_assoc.
Qed.

Lemma replaceAllFrom_before pat repl before before' k s :
  JS.DOLLAR ∉ repl ->
  replaceAllFrom pat repl before k s = replaceAllFrom pat repl before' k s.
Proof.
  intros H. revert before before' k. induction s as [|c s IH]; intros before before' k;
    [reflexivity|].
  cbn [replaceAllFrom]. destruct k as [|k]; [|apply IH].
  destruct (JS.startsWith pat (c :: s)).
  - rewrite !getSubstitution_plain by exact H. f_equal. apply IH.
  - f_equal. apply IH.
Qed.

Lemma replaceAllFrom_absent c0 pat repl before s :
  c0 ∉ s -> replaceAllFrom (c0 :: pat) repl before 0 s = s.
Proof.
  intros H. pose proof (replaceAllFrom_plain c0 pat repl before s [] H) as E.
  rewrite app_nil_r in E. rewrite E. cbn [replaceAllFrom]. apply app_nil_r.
Qed.

(** The placeholder of the password is not taken for that of the user
    name. *)
Lemma replaceAllFrom_other repl before s :
  replaceAllFrom USERNAME repl before 0 (PASSWORD ++ s)
  = PASSWORD ++ replaceAllFrom USERNAME repl (rev PASSWORD ++ before) 0 s.
Proof. reflexivity. Qed.

Lemma personalize_absent m3u username password :
  BRACE ∉ m3u -> personalize m3u username password = m3u.
Proof.
  intros H. unfold personalize, replaceAll.
  change (JS.lit "{{username}}") with (BRACE :: JS.lit "{username}}").
  change (JS.lit "{{password}}") with (BRACE :: JS.lit "{password}}").
  rewrite (replaceAllFrom_absent BRACE _ username [] m3u H).
  apply (replaceAllFrom_absent BRACE _ password [] m3u H).
Qed.

Lemma personalize_both a b c username password :
  BRACE ∉ a -> BRACE ∉ b -> BRACE ∉ c -> BRACE ∉ username ->
  JS.DOLLAR ∉ username -> JS.DOLLAR ∉ password ->
  personalize (a ++ USERNAME ++ b ++ PASSWORD ++ c) username password
  = a ++ username ++ b ++ password ++ c.
Proof.
  intros Ha Hb Hc Hu Hdu Hdp. unfold personalize, replaceAll.
  fold USERNAME. fold PASSWORD.
  assert (E1 : replaceAllFrom USERNAME username [] 0 (a ++ USERNAME ++ b ++ PASSWORD ++ c)
               = a ++ username ++ b ++ PASSWORD ++ c).
  { change USERNAME with (BRACE :: JS.lit "{username}}").
    rewrite replaceAllFrom_plain by exact Ha.
    rewrite replaceAllFrom_match, getSubstitution_plain by exact Hdu.
    rewrite replaceAllFrom_plain by exact Hb.
    change (BRACE :: JS.lit "{username}}") with USERNAME.
    rewrite replaceAllFrom_other.
    change USERNAME with (BRACE :: JS.lit "{username}}").
    now rewrite replaceAllFrom_absent. }
  rewrite E1.
  replace (a ++ username ++ b ++ PASSWORD ++ c)
    with ((a ++ username ++ b) ++ PASSWORD ++ c) by now rewrite <- !app_assoc.
  change PASSWORD with (BRACE :: JS.lit "{password}}").
  rewrite replaceAllFrom_plain.
  - rewrite replaceAllFrom_match, getSubstitution_plain by exact Hdp.
    rewrite replaceAllFrom_absent by exact Hc. now rewrite <- !app_assoc.
  - rewrite !elem_of_app. intros [H | [H | H]]; contradiction.
Qed.

End Personalize.
Section HandlersMore.

Variable toISOString : Z -> list N.

Lemma parseM3U_stream_ids text :
  map stream_id (parseM3U text) = seq 1 (length (parseM3U text)).
Proof.
  apply list_eq. intros i. rewrite list_lookup_fmap.
  destruct (parseM3U text !! i) as [e|] eqn:E; cbn.
  - pose proof E as E'. unfold parseM3U in E'. cbv zeta in E'.
    apply list_lookup_imap_Some in E'. destruct E' as (c & _ & ->).
    cbn [toChannel stream_id]. symmetry. apply lookup_seq. split; [lia|].
    now apply lookup_lt_Some in E.
  - symmetry. apply lookup_seq_ge. now apply lookup_ge_None in E.
Qed.

Lemma map_imap_toXtream {B} (g : xtreamChannel -> B) (h : channel -> B)
    (t : nat -> Z) (l : list channel) :
  (forall z ch, g (toXtream toISOString z ch) = h ch) ->
  map g (imap (fun i ch => toXtream toISOString (t i) ch) l) = map h l.
Proof.
  intros H. revert t. induction l as [|ch l IH]; intros t; [reflexivity|].
  cbn [imap map]. rewrite H. f_equal. apply (IH (t ∘ S)).
Qed.

Lemma firstPiece_no_comma s : JS.COMMA ∉ firstPiece s.
Proof.
  unfold firstPiece. destruct (JS.splitOn JS.COMMA s !! 0%nat) as [l|] eqn:E; cbn.
  - intros Hin. apply list_elem_of_lookup_2 in E.
    destruct (splitOn_elem _ _ _ _ E Hin) as [_ H]. now apply H.
  - inversion 1.
Qed.

Lemma firstPiece_comma p rest : JS.COMMA ∉ p -> firstPiece (p ++ JS.COMMA :: rest) = p.
Proof.
  intros H. unfold firstPiece. now rewrite splitOn_app, splitOn_none.
Qed.

Lemma firstPiece_plain p : JS.COMMA ∉ p -> firstPiece p = p.
Proof. intros H. unfold firstPiece. now rewrite splitOn_none. Qed.

Lemma orElse_some (v d : list N) : v <> [] -> JS.orElse (Some v) d = v.
Proof. destruct v; [contradiction | reflexivity]. Qed.

Lemma orElse_missing a (d : list N) : missing a -> JS.orElse a d = d.
Proof. intros [-> | ->]; reflexivity. Qed.

Lemma xtreamServerInfo_clock headers k :
  snd (xtreamServerInfo toISOString headers k) = ticked 2 k.
Proof.
  unfold xtreamServerInfo, readClock, ticked. cbn [snd reads timeAt].
  f_equal. lia.
Qed.

End HandlersMore.

(** X19. A playlist without an opening brace is sent as it is; a
    placeholder of the user name and one of the password, between texts
    without a brace, are replaced by the user name and the password, when
    these hold no dollar sign and the user name no brace. *)
Theorem personalize_placeholders :
  (forall m3u username password,
     BRACE ∉ m3u -> personalize m3u username password = m3u)
  /\ (forall a b c username password,
        BRACE ∉ a -> BRACE ∉ b -> BRACE ∉ c -> BRACE ∉ username ->
        JS.DOLLAR ∉ username -> JS.DOLLAR ∉ password ->
        personalize (a ++ USERNAME ++ b ++ PASSWORD ++ c) username password
        = a ++ username ++ b ++ password ++ c).
Proof. split; [apply personalize_absent | apply personalize_both]. Qed.

Lemma personalize_placeholders_witness :
  personalize (JS.lit "#EXTM3U") alice secret = JS.lit "#EXTM3U"
  /\ personalize (JS.lit "http://h/" ++ USERNAME ++ JS.lit "/" ++ PASSWORD ++ JS.lit "/1.ts")
       alice secret
     = JS.lit "http://h/" ++ alice ++ JS.lit "/" ++ secret ++ JS.lit "/1.ts".
Proof.
  split.
  - apply (proj1 personalize_placeholders).
    apply (bool_decide_unpack _). vm_compute. exact I.
  - apply (proj2 personalize_placeholders);
      apply (bool_decide_unpack _); vm_compute; exact I.
Defined.

(** X20. For an allowed request whose fetch returns a text, [/get.php]
    answers 200 with the content type its [type] parameter decides and the
    shaped playlist, and leaves cache and upstream as the fetch left them; a
    text that starts with the header and holds no brace is the body, as it
    is. *)
Theorem getPhp_ok ALLOW_USERS CACHE_TTL_MS now username password type c w m3u c' w' :
  requestAllowed ALLOW_USERS username password = true ->
  fetchM3U CACHE_TTL_MS now c w = (Ok m3u, c', w') ->
  getPhp ALLOW_USERS CACHE_TTL_MS now username password type c w
  = ({| status := 200; contentType := Some (contentTypeOf type);
        body := playlistBody m3u (queryString username) (queryString password) |},
     c', w')
  /\ (BRACE ∉ m3u -> (exists rest, m3u = EXTM3U ++ rest) ->
      playlistBody m3u (queryString username) (queryString password) = m3u).
Proof.
  intros Ha Hf. split.
  - unfold getPhp. rewrite Ha, Hf. reflexivity.
  - intros Hb Hh. unfold playlistBody. rewrite personalize_absent by exact Hb.
    unfold forceHeader. apply startsWith_iff in Hh. now rewrite Hh.
Qed.

Lemma getPhp_ok_witness :
  getPhp ∅ 300000 1000 (Some alice) None (Some (JS.lit "m3u")) initialCache
    (steady (JS.lit "#EXTM3U"))
  = ({| status := 200; contentType := Some (contentTypeOf (Some (JS.lit "m3u")));
        body := playlistBody (JS.lit "#EXTM3U") (queryString (Some alice))
                  (queryString None) |},
     replaced 1000 (JS.lit "#EXTM3U"), asked (steady (JS.lit "#EXTM3U")))
  /\ playlistBody (JS.lit "#EXTM3U") (queryString (Some alice)) (queryString None)
     = JS.lit "#EXTM3U".
Proof.
  assert (Ha : requestAllowed ∅ (Some alice) None = true) by reflexivity.
  assert (Hf : fetchM3U 300000 1000 initialCache (steady (JS.lit "#EXTM3U"))
               = (Ok (JS.lit "#EXTM3U"), replaced 1000 (JS.lit "#EXTM3U"),
                  asked (steady (JS.lit "#EXTM3U")))) by reflexivity.
  destruct (getPhp_ok ∅ 300000 1000 (Some alice) None (Some (JS.lit "m3u"))
              initialCache (steady (JS.lit "#EXTM3U")) (JS.lit "#EXTM3U")
              (replaced 1000 (JS.lit "#EXTM3U")) (asked (steady (JS.lit "#EXTM3U")))
              Ha Hf) as [H1 H2].
  split; [exact H1|]. apply H2.
  - apply (bool_decide_unpack _). vm_compute. exact I.
  - now exists [].
Defined.

(** X21. A rejected request reaches neither the cache nor the upstream:
    [/get.php] answers 401 with the denial body, [/player_api.php] answers
    200 with [auth] 0, the status Disabled and no channels, after three
    readings of the clock. *)
Theorem rejected_request toISOString ALLOW_USERS CACHE_TTL_MS now headers
    username password type c w k :
  requestAllowed ALLOW_USERS username password = false ->
  getPhp ALLOW_USERS CACHE_TTL_MS now username password type c w
  = ({| status := 401; contentType := None; body := deniedBody |}, c, w)
  /\ exists ui si,
       playerApi toISOString ALLOW_USERS CACHE_TTL_MS headers username password c w k
       = ({| api_status := 200; api_body := ApiData ui si [] |}, c, w, ticked 3 k)
       /\ ui_auth ui = 0%Z /\ ui_status ui = JS.lit "Disabled"
       /\ ui_username ui = queryString username
       /\ ui_password ui = queryString password.
Proof.
  intros Ha. split.
  - unfold getPhp. rewrite Ha. reflexivity.
  - unfold requestAllowed in Ha. unfold playerApi. rewrite Ha.
    unfold readClock at 1.
    pose proof (xtreamServerInfo_clock toISOString headers
                  {| reads := S (reads k); timeAt := timeAt k |}) as Hk.
    destruct (xtreamServerInfo _ _ _) as [si k2]. cbn [snd] in Hk. subst k2.
    eexists _, si. split.
    { f_equal. unfold ticked. cbn [reads timeAt]. f_equal. lia. }
    repeat split; reflexivity.
Qed.

Lemma rejected_request_witness :
  getPhp onlyAlice 300000 1000 (Some bob) None None initialCache (steady sampleTwoMeta)
  = ({| status := 401; contentType := None; body := deniedBody |},
     initialCache, steady sampleTwoMeta)
  /\ exists ui si,
       playerApi sampleISO onlyAlice 300000 proxied (Some bob) None initialCache
         (steady sampleTwoMeta) (clockAt 1000)
       = ({| api_status := 200; api_body := ApiData ui si [] |},
          initialCache, steady sampleTwoMeta, ticked 3 (clockAt 1000))
       /\ ui_auth ui = 0%Z /\ ui_status ui = JS.lit "Disabled"
       /\ ui_username ui = queryString (Some bob)
       /\ ui_password ui = queryString None.
Proof.
  apply (rejected_request sampleISO onlyAlice 300000 1000 proxied (Some bob) None None
           initialCache (steady sampleTwoMeta) (clockAt 1000)).
  vm_compute. reflexivity.
Defined.

Section Failure.

Variable toISOString : Z -> list N.

Lemma refresh_thrown now c w e :
  thrown (answer w (requests w)) e -> refresh now c w = (Throw e, c, asked w).
Proof.
  unfold refresh, request. fold (asked w).
  intros [-> | [(s & b & -> & Hge & ->) | (s & -> & Hlt)]].
  - reflexivity.
  - destruct (Z.geb_spec s 400); [reflexivity | lia].
  - destruct (Z.geb_spec s 400); [lia | reflexivity].
Qed.

Lemma failure_thrown o : failure o <-> exists e, thrown o e.
Proof.
  unfold failure, thrown. split.
  - destruct o as [e | s b]; [intros _; exists e; now left|].
    destruct (Z.le_gt_cases 400 s) as [Hge | Hlt].
    + intros _. exists (fetchFailed s). right; left. now exists s, b.
    + intros [H | [e ->]]; [lia|]. exists e. right; right. exists s. split; [reflexivity | lia].
  - intros [e [-> | [(s & b & -> & Hge & _) | (s & -> & _)]]].
    + exact I.
    + now left.
    + right. now exists e.
Qed.

Lemma errorText_message e : errMessage e <> [] -> errorText e = errMessage e.
Proof.
  unfold errorText. destruct (errMessage e); [contradiction | reflexivity].
Qed.

Lemma errorText_no_message e : errMessage e = [] -> errorText e = errName e.
Proof.
  unfold errorText, errorToString. intros ->. cbn.
  destruct (errName e); reflexivity.
Qed.

Lemma errorText_fetchFailed statusCode :
  errorText (fetchFailed statusCode)
  = JS.lit "Upstream M3U fetch failed: " ++ JS.ofZ statusCode.
Proof. reflexivity. Qed.

Lemma getPhp_thrown ALLOW_USERS CACHE_TTL_MS now username password type c w e :
  requestAllowed ALLOW_USERS username password = true ->
  thrown (answer w (requests w)) e -> stale CACHE_TTL_MS now c ->
  getPhp ALLOW_USERS CACHE_TTL_MS now username password type c w
  = ({| status := 500; contentType := None; body := errorBody (errorText e) |},
     c, asked w).
Proof.
  intros Ha He Hs. unfold getPhp. rewrite Ha. cbn [negb].
  rewrite fetchM3U_stale by exact Hs. now rewrite (refresh_thrown now c w e He).
Qed.

Lemma playerApi_thrown ALLOW_USERS CACHE_TTL_MS headers username password c w k e :
  requestAllowed ALLOW_USERS username password = true ->
  thrown (answer w (requests w)) e ->
  stale CACHE_TTL_MS (timeAt k (reads k + 3)) c ->
  playerApi toISOString ALLOW_USERS CACHE_TTL_MS headers username password c w k
  = ({| api_status := 500; api_body := ApiError (errorText e) |},
     c, asked w, ticked 4 k).
Proof.
  intros Ha He Hs. unfold requestAllowed in Ha. unfold playerApi. rewrite Ha.
  unfold readClock at 1.
  pose proof (xtreamServerInfo_clock toISOString headers
                {| reads := S (reads k); timeAt := timeAt k |}) as Hk.
  destruct (xtreamServerInfo _ _ _) as [si k2]. cbn [snd] in Hk. subst k2.
  unfold readClock, ticked. cbn [reads timeAt].
  replace (S (reads k) + 2) with (reads k + 3) by lia.
  rewrite fetchM3U_stale by exact Hs.
  rewrite (refresh_thrown _ c w e He). do 2 f_equal. lia.
Qed.

End Failure.

(** X22. When the fetch of an allowed request fails on a stale cache, both
    handlers answer 500 with the text of the very error the retrieval threw
    and leave the cache as it was, after one request: [/get.php] with the
    body of the header line and [# Error: ] before that text,
    [/player_api.php] with that text as [error]. For a status of 400 or more
    the text is Upstream M3U fetch failed: and the status; for an error of
    the request or of the reading of the body it is the message of that
    error, or its name when the message is empty. Every failure throws such
    an error. *)
Theorem upstream_failure toISOString ALLOW_USERS CACHE_TTL_MS headers
    username password type c w k :
  requestAllowed ALLOW_USERS username password = true ->
  (forall e now, thrown (answer w (requests w)) e -> stale CACHE_TTL_MS now c ->
     getPhp ALLOW_USERS CACHE_TTL_MS now username password type c w
     = ({| status := 500; contentType := None; body := errorBody (errorText e) |},
        c, asked w))
  /\ (forall e, thrown (answer w (requests w)) e ->
        stale CACHE_TTL_MS (timeAt k (reads k + 3)) c ->
        playerApi toISOString ALLOW_USERS CACHE_TTL_MS headers username password c w k
        = ({| api_status := 500; api_body := ApiError (errorText e) |},
           c, asked w, ticked 4 k))
  /\ (forall statusCode bodyText now,
        answer w (requests w) = Replied statusCode bodyText -> (400 <= statusCode)%Z ->
        stale CACHE_TTL_MS now c ->
        getPhp ALLOW_USERS CACHE_TTL_MS now username password type c w
        = ({| status := 500; contentType := None;
              body := errorBody (JS.lit "Upstream M3U fetch failed: " ++ JS.ofZ statusCode) |},
           c, asked w))
  /\ (forall statusCode bodyText,
        answer w (requests w) = Replied statusCode bodyText -> (400 <= statusCode)%Z ->
        stale CACHE_TTL_MS (timeAt k (reads k + 3)) c ->
        playerApi toISOString ALLOW_USERS CACHE_TTL_MS headers username password c w k
        = ({| api_status := 500;
              api_body := ApiError (JS.lit "Upstream M3U fetch failed: " ++ JS.ofZ statusCode) |},
           c, asked w, ticked 4 k))
  /\ (forall e, errMessage e <> [] -> errorText e = errMessage e)
  /\ (forall e, errMessage e = [] -> errorText e = errName e)
  /\ (failure (answer w (requests w)) <-> exists e, thrown (answer w (requests w)) e).
Proof.
  intros Ha. split; [|split; [|split; [|split; [|split; [|split]]]]].
  - intros e now He Hs. now apply getPhp_thrown.
  - intros e He Hs. now apply playerApi_thrown.
  - intros s b now Eo Hge Hs. rewrite <- errorText_fetchFailed.
    apply getPhp_thrown; [exact Ha | | exact Hs].
    right; left. now exists s, b.
  - intros s b Eo Hge Hs. rewrite <- errorText_fetchFailed.
    apply playerApi_thrown; [exact Ha | | exact Hs].
    right; left. now exists s, b.
  - apply errorText_message.
  - apply errorText_no_message.
  - apply failure_thrown.
Qed.

Lemma upstream_failure_witness :
  getPhp ∅ 300000 1000 None None None initialCache unreachable
  = ({| status := 500; contentType := None; body := errorBody (errorText netError) |},
     initialCache, asked unreachable)
  /\ playerApi sampleISO ∅ 300000 proxied None None initialCache unreachable (clockAt 1000)
     = ({| api_status := 500; api_body := ApiError (errorText netError) |},
        initialCache, asked unreachable, ticked 4 (clockAt 1000))
  /\ getPhp ∅ 300000 1000 None None None initialCache (failing 503)
     = ({| status := 500; contentType := None;
           body := errorBody (JS.lit "Upstream M3U fetch failed: " ++ JS.ofZ 503) |},
        initialCache, asked (failing 503))
  /\ playerApi sampleISO ∅ 300000 proxied None None initialCache (failing 503) (clockAt 1000)
     = ({| api_status := 500;
           api_body := ApiError (JS.lit "Upstream M3U fetch failed: " ++ JS.ofZ 503) |},
        initialCache, asked (failing 503), ticked 4 (clockAt 1000))
  /\ errorText netError = errMessage netError.
Proof.
  assert (Ha : requestAllowed ∅ None None = true) by reflexivity.
  pose proof (upstream_failure sampleISO ∅ 300000 proxied None None None initialCache
                unreachable (clockAt 1000) Ha) as (H1 & H2 & _ & _ & H5 & _).
  pose proof (upstream_failure sampleISO ∅ 300000 proxied None None None initialCache
                (failing 503) (clockAt 1000) Ha) as (_ & _ & H3 & H4 & _).
  split; [|split; [|split; [|split]]].
  - apply (H1 netError 1000%Z); [now left | now left].
  - apply (H2 netError); [now left | now left].
  - apply (H3 503%Z (Ok []) 1000%Z); [reflexivity | vm_compute; discriminate | now left].
  - apply (H4 503%Z (Ok [])); [reflexivity | vm_compute; discriminate | now left].
  - apply H5. vm_compute. discriminate.
Defined.

(** X23. For an allowed request whose fetch returns a text,
    [/player_api.php] answers 200 with [auth] 1, the status Active and one
    channel for each entry of the parse of that text, in order: the same
    name, number, category, icon, guide identifier and media URL, and the
    time of its own reading of the clock. *)
Theorem playerApi_channels toISOString ALLOW_USERS CACHE_TTL_MS headers
    username password c w k text c' w' :
  requestAllowed ALLOW_USERS username password = true ->
  consistent c ->
  fetchM3U CACHE_TTL_MS (timeAt k (reads k + 3)) c w = (Ok text, c', w') ->
  exists ui si chans,
    playerApi toISOString ALLOW_USERS CACHE_TTL_MS headers username password c w k
    = ({| api_status := 200; api_body := ApiData ui si chans |}, c', w',
       ticked (4 + length (parseM3U text)) k)
    /\ ui_auth ui = 1%Z /\ ui_status ui = JS.lit "Active"
    /\ chans = imap (fun i ch => toXtream toISOString (timeAt k (reads k + 4 + i)) ch)
                 (parseM3U text)
    /\ map xc_name chans = map name (parseM3U text)
    /\ map xc_stream_id chans = seq 1 (length (parseM3U text))
    /\ map xc_category_id chans = map group_title (parseM3U text)
    /\ map xc_stream_icon chans = map tvg_logo (parseM3U text)
    /\ map xc_epg_channel_id chans = map tvg_id (parseM3U text)
    /\ map xc_direct_source chans = map direct_source (parseM3U text).
Proof.
  intros Ha Hc Hf.
  destruct (fetchM3U_returns CACHE_TTL_MS _ c w text c' w' Hf) as (_ & Hp & _).
  specialize (Hp Hc).
  unfold requestAllowed in Ha. unfold playerApi. rewrite Ha.
  unfold readClock at 1.
  pose proof (xtreamServerInfo_clock toISOString headers
                {| reads := S (reads k); timeAt := timeAt k |}) as Hk.
  destruct (xtreamServerInfo _ _ _) as [si k2]. cbn [snd] in Hk. subst k2.
  unfold readClock, ticked. cbn [reads timeAt].
  replace (S (reads k) + 2) with (reads k + 3) by lia.
  rewrite Hf, Hp. cbn [default].
  eexists _, si,
    (imap (fun i ch => toXtream toISOString (timeAt k (reads k + 4 + i)) ch)
       (parseM3U text)).
  split.
  { unfold Datatypes.id. f_equal; [do 4 f_equal | f_equal; lia].
    apply imap_ext. intros i ch _. do 2 f_equal. lia. }
  split; [reflexivity | split; [reflexivity | split; [reflexivity|]]].
  - repeat split.
    + now apply map_imap_toXtream.
    + rewrite <- parseM3U_stream_ids. now apply map_imap_toXtream.
    + now apply map_imap_toXtream.
    + now apply map_imap_toXtream.
    + now apply map_imap_toXtream.
    + now apply map_imap_toXtream.
Qed.

Lemma playerApi_channels_witness :
  exists ui si chans,
    playerApi sampleISO ∅ 300000 proxied None None initialCache (steady sampleNamed)
      (clockAt 1000)
    = ({| api_status := 200; api_body := ApiData ui si chans |},
       replaced 1003 sampleNamed, asked (steady sampleNamed),
       ticked (4 + length (parseM3U sampleNamed)) (clockAt 1000))
    /\ ui_auth ui = 1%Z /\ ui_status ui = JS.lit "Active"
    /\ chans = imap (fun i ch => toXtream sampleISO
                                   (timeAt (clockAt 1000) (reads (clockAt 1000) + 4 + i)) ch)
                 (parseM3U sampleNamed)
    /\ map xc_name chans = map name (parseM3U sampleNamed)
    /\ map xc_stream_id chans = seq 1 (length (parseM3U sampleNamed))
    /\ map xc_category_id chans = map group_title (parseM3U sampleNamed)
    /\ map xc_stream_icon chans = map tvg_logo (parseM3U sampleNamed)
    /\ map xc_epg_channel_id chans = map tvg_id (parseM3U sampleNamed)
    /\ map xc_direct_source chans = map direct_source (parseM3U sampleNamed).
Proof.
  apply (playerApi_channels sampleISO ∅ 300000 proxied None None initialCache
           (steady sampleNamed) (clockAt 1000) sampleNamed).
  - reflexivity.
  - reflexivity.
  - reflexivity.
Defined.

(** X24. The protocol [xtreamServerInfo] reports is what stands before the
    first comma of the forwarded protocol, or http without that header; it
    never holds a comma, the port is 443 for https and 80 for anything
    else, the URL is the protocol, a colon, two slashes and the host, and
    the host is the forwarded host, else the host header, else localhost.
    The function reads the clock twice. *)
Theorem xtreamServerInfo_fields toISOString headers k :
  let si := fst (xtreamServerInfo toISOString headers k) in
  let proto := si_server_protocol si in
  (JS.COMMA ∉ proto)
  /\ (proto = JS.lit "https" /\ si_port si = 443%Z
      \/ proto <> JS.lit "https" /\ si_port si = 80%Z)
  /\ (missing (headers !! JS.lit "x-forwarded-proto") -> proto = JS.lit "http")
  /\ (forall p rest, headers !! JS.lit "x-forwarded-proto" = Some (p ++ JS.COMMA :: rest) ->
        JS.COMMA ∉ p -> proto = p)
  /\ (forall p, headers !! JS.lit "x-forwarded-proto" = Some p -> p <> [] ->
        JS.COMMA ∉ p -> proto = p)
  /\ (exists host, si_url si = proto ++ JS.lit "://" ++ host
        /\ (forall h, headers !! JS.lit "x-forwarded-host" = Some h -> h <> [] -> host = h)
        /\ (missing (headers !! JS.lit "x-forwarded-host") ->
            forall h, headers !! JS.lit "host" = Some h -> h <> [] -> host = h)
        /\ (missing (headers !! JS.lit "x-forwarded-host") ->
            missing (headers !! JS.lit "host") -> host = JS.lit "localhost"))
  /\ si_timestamp_now si = (timeAt k (reads k) / 1000)%Z
  /\ si_time_now si = toISOString (timeAt k (S (reads k)))
  /\ snd (xtreamServerInfo toISOString headers k) = ticked 2 k.
Proof.
  cbv zeta. unfold xtreamServerInfo, readClock.
  cbn [fst snd si_server_protocol si_port si_url si_timestamp_now si_time_now reads timeAt].
  split; [apply firstPiece_no_comma | split; [|split; [|split; [|split; [|split]]]]].
  - destruct (JS.eqb _ (JS.lit "https")) eqn:E.
    + left. apply eqb_eq in E. now split.
    + right. split; [|reflexivity]. intros H. apply eqb_eq in H. congruence.
  - intros Hm. now rewrite orElse_missing.
  - intros p rest Hp Hc. rewrite Hp, orElse_some by (now destruct p).
    now apply firstPiece_comma.
  - intros p Hp Hne Hc. rewrite Hp, orElse_some by exact Hne.
    now apply firstPiece_plain.
  - eexists. split; [reflexivity | split; [|split]].
    + intros h Hh Hne. now rewrite Hh, orElse_some.
    + intros Hm h Hh Hne. now rewrite (orElse_missing _ _ Hm), Hh, orElse_some.
    + intros Hm1 Hm2. now rewrite (orElse_missing _ _ Hm1), (orElse_missing _ _ Hm2).
  - split; [reflexivity | split; [reflexivity|]].
    unfold ticked. cbn [reads timeAt]. f_equal. lia.
Qed.

Lemma xtreamServerInfo_fields_witness :
  si_server_protocol (fst (xtreamServerInfo sampleISO proxied (clockAt 1000)))
  = JS.lit "https"
  /\ si_server_protocol (fst (xtreamServerInfo sampleISO ∅ (clockAt 1000)))
     = JS.lit "http".
Proof.
  split.
  - apply (proj1 (proj2 (proj2 (proj2
             (xtreamServerInfo_fields sampleISO proxied (clockAt 1000)))))
             (JS.lit "https") (JS.lit "http")).
    + vm_compute. reflexivity.
    + apply (bool_decide_unpack _). vm_compute. exact I.
  - apply (proj1 (proj2 (proj2 (xtreamServerInfo_fields sampleISO ∅ (clockAt 1000))))).
    left. vm_compute. reflexivity.
Defined.

(** ** Line endings, stray lines and the date of a channel *)

Section LineEndings.

(** A carriage return at the end of a text is added to its last line. *)
Lemma splitLines_snoc_CR a :
  exists ls l, JS.splitLines a = ls ++ [l]
               /\ JS.splitLines (a ++ [JS.CR]) = ls ++ [l ++ [JS.CR]].
Proof.
  induction a as [|c|c d s IHs IHd] using list_ind2.
  - exists [], []. split; reflexivity.
  - cbn [app]. rewrite !splitLines_cons.
    destruct (c =? JS.LF)%N eqn:E.
    + exists [[]], []. split; reflexivity.
    + exists [], [c]. split; [reflexivity|].
      rewrite andb_false_r. reflexivity.
  - cbn [app]. rewrite (splitLines_cons c (d :: s)), (splitLines_cons c (d :: s ++ [JS.CR])).
    destruct (c =? JS.LF)%N.
    + destruct IHd as (ls & l & E1 & E2). exists ([] :: ls), l.
      rewrite E1. cbn [app] in E2. rewrite E2. split; reflexivity.
    + destruct ((c =? JS.CR) && (d =? JS.LF))%N.
      * destruct IHs as (ls & l & E1 & E2). exists ([] :: ls), l.
        rewrite E1, E2. split; reflexivity.
      * destruct IHd as (ls & l & E1 & E2). cbn [app] in E2. rewrite E1, E2.
        destruct ls as [|l0 ls].
        -- exists [], (c :: l). split; reflexivity.
        -- exists ((c :: l0) :: ls), l. split; reflexivity.
Qed.

Lemma trimmedLines_snoc_CR a : trimmedLines (a ++ [JS.CR]) = trimmedLines a.
Proof.
  unfold trimmedLines. destruct (splitLines_snoc_CR a) as (ls & l & -> & ->).
  rewrite !map_app. cbn [map]. now rewrite trim_snoc.
Qed.

Lemma replaceT_first d rest :
  LETTER_T ∉ d -> replaceT (d ++ LETTER_T :: rest) = d ++ 32%N :: rest.
Proof.
  induction d as [|c d IH]; intros H; cbn [app replaceT].
  - reflexivity.
  - destruct (c =? 84)%N eqn:E.
    + apply N.eqb_eq in E. subst. exfalso. apply H. constructor.
    + rewrite IH by (intros Hin; apply H; now constructor). reflexivity.
Qed.

Lemma playlistOf_lineStart items : lineStart (playlistOf items).
Proof.
  induction items as [|[m u] items IH]; [now left | right].
  cbn [playlistOf map concat]. fold (playlistOf items). unfold itemText. cbn [fst snd].
  destruct IH as [-> | [p ->]].
  - exists (m ++ [JS.LF] ++ u). now rewrite app_nil_r, <- !app_assoc.
  - exists ((m ++ [JS.LF] ++ u ++ [JS.LF]) ++ p). now rewrite <- !app_assoc.
Qed.

End LineEndings.

(** X25. Windows line endings change nothing: a carriage return before a
    line feed, and one at the very end of the text, are dropped with the
    rest of the white space around the lines. *)
Theorem parseM3U_crlf :
  (forall a b, parseM3U (a ++ JS.CR :: JS.LF :: b) = parseM3U (a ++ JS.LF :: b))
  /\ (forall a, parseM3U (a ++ [JS.CR]) = parseM3U a).
Proof.
  split.
  - intros a b. apply parseM3U_trimmedLines.
    change (a ++ JS.CR :: JS.LF :: b) with (a ++ [JS.CR] ++ JS.LF :: b).
    rewrite app_assoc, !trimmedLines_app_LF. now rewrite trimmedLines_snoc_CR.
  - intros a. apply parseM3U_trimmedLines, trimmedLines_snoc_CR.
Qed.

(** X26. Between the items of a playlist a line that is not a metadata
    line is ignored, a URL line included: a URL belongs to one entry only,
    and the items before and after the line are numbered in one run. *)
Theorem parseM3U_stray_line items1 items2 x :
  Forall wellFormedItem items1 -> Forall wellFormedItem items2 ->
  oneLine x -> ~ isMeta x ->
  parseM3U (playlistOf items1 ++ x ++ JS.LF :: playlistOf items2)
  = imap entryOf (items1 ++ items2).
Proof.
  intros H1 H2 Hone Hx.
  assert (Hstart : lineStart (playlistOf items1)) by apply playlistOf_lineStart.
  rewrite parseM3U_loopText, loopText_lineStart by exact Hstart.
  rewrite (loopText_playlistOf items1 [] H1), loopText_app_LF.
  rewrite (loopText_oneLine x) by exact Hone.
  assert (Ex : forall chans, parseStep (None, chans) x = (@None pending, chans)).
  { intros chans. unfold parseStep.
    destruct (JS.truthy (JS.trim x)); cbn [negb]; [|reflexivity].
    destruct (JS.startsWith EXTINF (JS.trim x)) eqn:E; [now elim Hx | reflexivity]. }
  rewrite Ex, (loopText_playlistOf items2 _ H2). cbn [snd app].
  rewrite <- map_app. apply imap_toChannel_map.
Qed.

Lemma parseM3U_stray_line_witness :
  parseM3U (playlistOf [itemA] ++ JS.lit "http://x/again" ++ JS.LF :: playlistOf [itemB])
  = imap entryOf ([itemA] ++ [itemB]).
Proof.
  apply parseM3U_stray_line.
  - repeat constructor; try (apply oneLine_check; reflexivity); try reflexivity;
      vm_compute; discriminate.
  - repeat constructor; try (apply oneLine_check; reflexivity); try reflexivity;
      vm_compute; discriminate.
  - apply oneLine_check; reflexivity.
  - vm_compute. discriminate.
Defined.

(** X27. The date of a channel is the ISO date and time of the reading,
    seconds included, with a space instead of the T between them. *)
Theorem addedOf_iso date time rest :
  length date = 10 -> length time = 8 -> LETTER_T ∉ date ->
  addedOf (date ++ LETTER_T :: time ++ rest) = date ++ 32%N :: time.
Proof.
  intros Hd Ht Hn. unfold addedOf.
  replace (take 19 (date ++ LETTER_T :: time ++ rest)) with (date ++ LETTER_T :: time).
  - now apply replaceT_first.
  - rewrite take_app_ge by lia. rewrite Hd. cbn [Nat.sub take]. 
    change (9 : nat) with (S 8). f_equal.
    replace (take 8 (time ++ rest)) with time; [reflexivity|].
    now rewrite <- Ht, take_app_length.
Qed.

Lemma addedOf_iso_witness :
  addedOf (JS.lit "2024-01-02" ++ LETTER_T :: JS.lit "03:04:05" ++ JS.lit ".678Z")
  = JS.lit "2024-01-02" ++ 32%N :: JS.lit "03:04:05".
Proof.
  apply addedOf_iso; [reflexivity | reflexivity |].
  apply (bool_decide_unpack _). vm_compute. exact I.
Defined.
